(** * A Connect-Four move-selection agent: shallow embedding of [agent_200.c]

    The C program reads a player number and a 6x7 board from standard input,
    runs a depth-limited minimax search with alpha-beta pruning and prints the
    letter of the chosen column.

    Modelling conventions.
    - A C [int] is a [Z].  Signed overflow is undefined in C, so there is no
      wrap-around to write out; every arithmetic operation of the program
      ([top + 1], [3 - player], [depth - 1], the stone counters) is the
      operation of [Z], and the range lemmas below show that the values the
      search returns stay far inside [INT_MIN, INT_MAX].  The integers read
      from the input are stored as [int]s ([to_int]).
    - The arrays [int board[ROWS][COLS]] and [int top[COLS]] are lists, read
      and updated by index.  An index outside the array is undefined behaviour
      in C; here such a read yields 0 and such a write changes nothing.  The
      predicate [wf_state] records the shape the C types guarantee.
    - [alphabeta] recurses on a [nat] of fuel and returns [None] when the
      fuel runs out; [alphabeta_total] shows that this never happens once the
      fuel exceeds the number of free cells, or the depth. *)

From Stdlib Require Import ZArith Lia List Bool Ascii String DecimalString Sorted.
From stdpp Require Import base option list.

Local Open Scope Z_scope.

(** ** Constants *)

Definition COLS : Z := 7.
Definition ROWS : Z := 6.
Definition MAX_DEPTH : Z := 6.
Definition INT_MAX : Z := 2147483647.
Definition INT_MIN : Z := -2147483648.
Definition EXIT_SUCCESS : Z := 0.
Definition EXIT_FAILURE : Z := 1.

(** ** Arrays of [int] *)

(** [a[i]] *)
Definition arr_get (a : list Z) (i : Z) : Z :=
  if i <? 0 then 0 else default 0 (a !! Z.to_nat i).

(** [a[i] = v] *)
Definition arr_set (a : list Z) (i v : Z) : list Z :=
  if i <? 0 then a else <[Z.to_nat i := v]> a.

(** [b[i][j]] *)
Definition cell (b : list (list Z)) (i j : Z) : Z :=
  if i <? 0 then 0 else arr_get (default [] (b !! Z.to_nat i)) j.

(** [b[i][j] = v] *)
Definition cell_set (b : list (list Z)) (i j v : Z) : list (list Z) :=
  if i <? 0 then b else alter (fun r => arr_set r j v) (Z.to_nat i) b.

(** ** The state *)

Record State : Type := mkState {
  board : list (list Z);   (* ROWS x COLS, 0 empty, 1 or 2 a stone *)
  top : list Z;            (* next free row of each column *)
  player : Z               (* the player about to move *)
}.

(** The shape fixed by the C declaration of [State]. *)
Definition wf_state (s : State) : Prop :=
  length (board s) = Z.to_nat ROWS /\
  Forall (fun r => length r = Z.to_nat COLS) (board s) /\
  length (top s) = Z.to_nat COLS.

(** The loop ranges [for (i = 0; i < ROWS; i++)] and
    [for (j = 0; j < COLS; j++)], and their nesting in row-major order. *)
Definition rows : list Z := seqZ 0 ROWS.
Definition cols : list Z := seqZ 0 COLS.
Definition all_cells : list (Z * Z) :=
  flat_map (fun i => map (fun j => (i, j)) cols) rows.

Definition copy_state (src : State) : State :=
  {| board := map (fun r => map (fun x => x) r) (board src);
     top := map (fun x => x) (top src);
     player := player src |}.

(** The valid moves in ascending order; the C function also returns their
    number, which is the length of the list. *)
Definition get_valid_moves (s : State) : list Z :=
  List.filter (fun j => arr_get (top s) j <? ROWS) cols.

Definition apply_move (s : State) (move : Z) : State :=
  let row := arr_get (top s) move in
  {| board := cell_set (board s) row move (player s);
     top := arr_set (top s) move (arr_get (top s) move + 1);
     player := 3 - player s |}.

(** ** Winner detection *)

(** The body of the double loop of [check_winner] at cell (i, j): [true]
    when one of the four [return player] statements is reached.  The bound
    test comes first in every conjunction, as in the source, so no cell
    outside the grid decides the result. *)
Definition wins_at (b : list (list Z)) (i j : Z) : bool :=
  let p := cell b i j in
  if p =? 0 then false
  else
    ((j + 3 <? COLS) && (p =? cell b i (j + 1)) && (p =? cell b i (j + 2))
       && (p =? cell b i (j + 3)))
    || ((i + 3 <? ROWS) && (p =? cell b (i + 1) j) && (p =? cell b (i + 2) j)
          && (p =? cell b (i + 3) j))
    || ((i + 3 <? ROWS) && (j + 3 <? COLS) && (p =? cell b (i + 1) (j + 1))
          && (p =? cell b (i + 2) (j + 2)) && (p =? cell b (i + 3) (j + 3)))
    || ((i + 3 <? ROWS) && (0 <=? j - 3) && (p =? cell b (i + 1) (j - 1))
          && (p =? cell b (i + 2) (j - 2)) && (p =? cell b (i + 3) (j - 3))).

(** The second loop of [check_winner]: [full] stays 1 when no column has
    [top[j] < ROWS]. *)
Definition board_full (s : State) : bool :=
  forallb (fun j => negb (arr_get (top s) j <? ROWS)) cols.

Definition check_winner (s : State) : Z :=
  match List.find (fun ij => wins_at (board s) (fst ij) (snd ij)) all_cells with
  | Some ij => cell (board s) (fst ij) (snd ij)
  | None => if board_full s then -1 else 0
  end.

Definition is_terminal (s : State) : Z :=
  if check_winner s =? 0 then 0 else 1.

(** ** Static evaluation *)

(** The counting loop of [evaluate_state]: the pair is
    (count_root, count_opp). *)
Definition count_step (s : State) (root_player : Z) (acc : Z * Z) (ij : Z * Z)
  : Z * Z :=
  if cell (board s) (fst ij) (snd ij) =? root_player then (fst acc + 1, snd acc)
  else if cell (board s) (fst ij) (snd ij) =? 3 - root_player
       then (fst acc, snd acc + 1)
       else acc.

Definition count_loop (s : State) (root_player : Z) : Z * Z :=
  fold_left (count_step s root_player) all_cells (0, 0).

Definition evaluate_state (s : State) (root_player : Z) : Z :=
  let winner := check_winner s in
  if winner =? root_player then 100000
  else if winner =? 3 - root_player then -100000
  else if winner =? -1 then 0
  else let c := count_loop s root_player in fst c - snd c.

(** ** Alpha-beta search *)

(** The loop of a maximizing node, entered with the current [value] and
    [alpha]; [rec child alpha beta] is the recursive call on a child. *)
Fixpoint max_loop (rec : State -> Z -> Z -> option Z) (s : State)
    (moves : list Z) (value alpha beta : Z) : option Z :=
  match moves with
  | [] => Some value
  | mv :: rest =>
      let child := apply_move (copy_state s) mv in
      match rec child alpha beta with
      | None => None
      | Some score =>
          let value := if score >? value then score else value in
          let alpha := if value >? alpha then value else alpha in
          if alpha >=? beta then Some value
          else max_loop rec s rest value alpha beta
      end
  end.

(** The loop of a minimizing node. *)
Fixpoint min_loop (rec : State -> Z -> Z -> option Z) (s : State)
    (moves : list Z) (value alpha beta : Z) : option Z :=
  match moves with
  | [] => Some value
  | mv :: rest =>
      let child := apply_move (copy_state s) mv in
      match rec child alpha beta with
      | None => None
      | Some score =>
          let value := if score <? value then score else value in
          let beta := if value <? beta then value else beta in
          if alpha >=? beta then Some value
          else min_loop rec s rest value alpha beta
      end
  end.

Fixpoint alphabeta (fuel : nat) (s : State) (depth alpha beta maximizing
    root_player : Z) : option Z :=
  match fuel with
  | O => None
  | S fuel' =>
      let winner := check_winner s in
      if (depth =? 0) || negb (winner =? 0) then Some (evaluate_state s root_player)
      else
        let moves := get_valid_moves s in
        if (Z.of_nat (length moves) =? 0) then Some (evaluate_state s root_player)
        else if negb (maximizing =? 0) then
          max_loop (fun c a b => alphabeta fuel' c (depth - 1) a b 0 root_player)
                   s moves INT_MIN alpha beta
        else
          min_loop (fun c a b => alphabeta fuel' c (depth - 1) a b 1 root_player)
                   s moves INT_MAX alpha beta
  end.

(** The loop of [alphabeta_search], entered with the current [best_move] and
    [best_value]. *)
Fixpoint search_loop (fuel : nat) (root : State) (depth root_player : Z)
    (moves : list Z) (best_move best_value : Z) : option Z :=
  match moves with
  | [] => Some best_move
  | mv :: rest =>
      let child := apply_move (copy_state root) mv in
      match alphabeta fuel child (depth - 1) INT_MIN INT_MAX 0 root_player with
      | None => None
      | Some value =>
          if value >? best_value
          then search_loop fuel root depth root_player rest mv value
          else search_loop fuel root depth root_player rest best_move best_value
      end
  end.

Definition alphabeta_search (fuel : nat) (root : State) (depth root_player : Z)
  : option Z :=
  search_loop fuel root depth root_player (get_valid_moves root) (-1) INT_MIN.

(** ** Standard input, standard output and [main] *)

(** [isspace] in the C locale. *)
Definition is_space (c : ascii) : bool :=
  let n := nat_of_ascii c in
  Nat.eqb n 32 || (Nat.leb 9 n && Nat.leb n 13).

Definition digit_of (c : ascii) : option Z :=
  let n := Z.of_nat (nat_of_ascii c) in
  if (48 <=? n) && (n <=? 57) then Some (n - 48) else None.

Fixpoint skip_space (inp : string) : string :=
  match inp with
  | String c t => if is_space c then skip_space t else inp
  | EmptyString => inp
  end.

Fixpoint read_digits (acc : Z) (inp : string) : Z * string :=
  match inp with
  | String c t =>
      match digit_of c with
      | Some d => read_digits (10 * acc + d) t
      | None => (acc, inp)
      end
  | EmptyString => (acc, inp)
  end.

Definition LONG_MAX : Z := 9223372036854775807.
Definition LONG_MIN : Z := -9223372036854775808.

(** The [long] that [strtol] returns for a digit string of value [z]: the
    value itself, brought back to the nearest end of the range of [long]
    when it lies outside. *)
Definition to_long (z : Z) : Z := Z.max LONG_MIN (Z.min LONG_MAX z).

(** The [int] that the assignment of a [long] stores: its low 32 bits,
    read as a two's-complement number. *)
Definition to_int (z : Z) : Z :=
  (z + 2147483648) mod 4294967296 - 2147483648.

Definition read_sign (inp : string) : bool * string :=
  match inp with
  | String "-" t => (true, t)
  | String "+" t => (false, t)
  | _ => (false, inp)
  end.

(** One conversion [scanf("%d", &x)]: [Some (x, rest)] when it returns 1,
    [None] when it returns 0 or EOF.  White space is skipped, then an optional
    sign and at least one decimal digit are consumed.  The digits are
    converted as the C library does it (glibc on a 64-bit target): as by
    [strtol], and the [long] is stored into the [int].  So 4294967297 is
    read as 1; C itself leaves a number that does not fit undefined. *)
Definition scanf_d (inp : string) : option (Z * string) :=
  let (neg, inp) := read_sign (skip_space inp) in
  match inp with
  | String c t =>
      match digit_of c with
      | Some d => let (n, rest) := read_digits d t in
                  Some (to_int (to_long (if neg : bool then - n else n)), rest)
      | None => None
      end
  | EmptyString => None
  end.

(** [printf("%d", z)] *)
Definition show_int (z : Z) : string :=
  DecimalString.NilZero.string_of_int (Z.to_int z).

Definition nl : string := String (ascii_of_nat 10) EmptyString.

Definition stack_name (i : Z) : ascii :=
  ascii_of_nat (Z.to_nat ((65 + i) mod 256)).

(** What a run leaves behind: the exit status, the two output channels and
    the seed handed to [srand]. *)
Record Outcome : Type := mkOutcome {
  exit_status : Z;
  out : string;
  err : string;
  rand_seed : Z
}.

Definition failure (seed : Z) (msg : string) : Outcome :=
  {| exit_status := EXIT_FAILURE; out := EmptyString; err := msg;
     rand_seed := seed |}.

(** [root_state] before it is filled in.  It is uninitialised in C; every
    cell and every [top] entry is written before it is read, so the content
    chosen here is immaterial (see [read_board_initial_content]). *)
Definition blank_board : list (list Z) :=
  repeat (repeat 0 (Z.to_nat COLS)) (Z.to_nat ROWS).
Definition blank_top : list Z := repeat 0 (Z.to_nat COLS).

(** The reading loop of [main]: [inr (i, j)] is the cell whose conversion
    failed. *)
Fixpoint read_board (cells : list (Z * Z)) (inp : string) (b : list (list Z))
  : list (list Z) * string + Z * Z :=
  match cells with
  | [] => inl (b, inp)
  | ij :: rest =>
      match scanf_d inp with
      | Some (v, inp') => read_board rest inp' (cell_set b (fst ij) (snd ij) v)
      | None => inr ij
      end
  end.

(** The inner loop that initialises [top[j]]. *)
Definition count_column (b : list (list Z)) (j : Z) : Z :=
  fold_left (fun t i => if cell b i j =? 0 then t else t + 1) rows 0.

Definition init_top (b : list (list Z)) : list Z :=
  fold_left (fun t j => arr_set t j (count_column b j)) cols blank_top.

(** The root state [main] builds from the board it has read. *)
Definition init_state (b : list (list Z)) (this_player : Z) : State :=
  {| board := b; top := init_top b; player := this_player |}.

(** [now] is the value of [time(NULL)]. *)
Definition main (fuel : nat) (now : Z) (input : string) : option Outcome :=
  let seed := now in
  match scanf_d input with
  | None => Some (failure seed ("Error: Failed to read player number" ++ nl))
  | Some (this_player, inp) =>
      if negb (this_player =? 1) && negb (this_player =? 2) then
        Some (failure seed ("Error: Invalid player number "
                              ++ show_int this_player ++ nl))
      else
        match read_board all_cells inp blank_board with
        | inr ij =>
            Some (failure seed ("Error: Failed to read board at ["
                                  ++ show_int (fst ij) ++ "]["
                                  ++ show_int (snd ij) ++ "]" ++ nl))
        | inl (b, _) =>
            let root_state := init_state b this_player in
            match alphabeta_search fuel root_state MAX_DEPTH this_player with
            | None => None
            | Some best_move =>
                if best_move <? 0 then
                  Some (failure seed ("Error: No valid move found." ++ nl))
                else
                  Some {| exit_status := EXIT_SUCCESS;
                          out := String (stack_name best_move) EmptyString;
                          err := EmptyString;
                          rand_seed := seed |}
            end
        end
  end.

(** ** Reference semantics: unpruned minimax *)

(** Full minimax to [d] plies over [get_valid_moves], [apply_move],
    [check_winner] and [evaluate_state], with no window and no cut-off: the
    value of an inner node is the greatest (maximizing) or least (minimizing)
    value of all its children. *)
Fixpoint minimax (d : nat) (s : State) (maximizing : bool) (root_player : Z)
  : Z :=
  match d with
  | O => evaluate_state s root_player
  | S d' =>
      if negb (check_winner s =? 0) then evaluate_state s root_player
      else
        match get_valid_moves s with
        | [] => evaluate_state s root_player
        | mv :: rest =>
            let v m := minimax d' (apply_move s m) (negb maximizing) root_player in
            fold_left (fun acc m => if maximizing then Z.max acc (v m)
                                    else Z.min acc (v m))
                      rest (v mv)
        end
  end.

(** ** Notions used by the statements *)

Definition count_if {A : Type} (P : A -> bool) (l : list A) : Z :=
  Z.of_nat (length (List.filter P l)).

(** Number of non-empty cells of the grid. *)
Definition occupied (b : list (list Z)) : Z :=
  count_if (fun ij => negb (cell b (fst ij) (snd ij) =? 0)) all_cells.

(** Number of stones of player [p] on the grid. *)
Definition stones (b : list (list Z)) (p : Z) : Z :=
  count_if (fun ij => cell b (fst ij) (snd ij) =? p) all_cells.

(** Number of non-empty cells of column [j]. *)
Definition column_stones (b : list (list Z)) (j : Z) : Z :=
  count_if (fun i => negb (cell b i j =? 0)) rows.

Definition board_shape (b : list (list Z)) : Prop :=
  length b = Z.to_nat ROWS /\ Forall (fun r => length r = Z.to_nat COLS) b.

Definition is_player (p : Z) : Prop := p = 1 \/ p = 2.

(** The height invariant of the data model. *)
Definition heights_ok (s : State) : Prop :=
  forall j, 0 <= j < COLS -> arr_get (top s) j = column_stones (board s) j.

(** Every column is filled from row 0 upward, without a gap. *)
Definition packed (s : State) : Prop :=
  forall j, 0 <= j < COLS ->
    0 <= arr_get (top s) j <= ROWS /\
    forall i, 0 <= i < ROWS ->
      (cell (board s) i j <> 0 <-> i < arr_get (top s) j).

(** States reached from [s] by valid moves only. *)
Inductive legal_play (s : State) : State -> Prop :=
  | legal_play_here : legal_play s s
  | legal_play_move s' c :
      legal_play s s' -> In c (get_valid_moves s') ->
      legal_play s (apply_move s' c).

(** Boolean form of [packed]. *)
Definition packedb (s : State) : bool :=
  forallb (fun j =>
    (0 <=? arr_get (top s) j) && (arr_get (top s) j <=? ROWS) &&
    forallb (fun i => Bool.eqb (negb (cell (board s) i j =? 0))
                               (i <? arr_get (top s) j)) rows) cols.

(** The root state [main] hands to [alphabeta_search], when the input gets
    that far: a player number 1 or 2 followed by ROWS * COLS integers. *)
Definition root_state_of (input : string) : option State :=
  match scanf_d input with
  | Some (this_player, inp) =>
      if negb (this_player =? 1) && negb (this_player =? 2) then None
      else match read_board all_cells inp blank_board with
           | inl (b, _) => Some (init_state b this_player)
           | inr _ => None
           end
  | None => None
  end.

(** ** Sample inputs *)

(** Player 1 to move on the empty board. *)
Definition input_empty : string :=
  "1  0 0 0 0 0 0 0  0 0 0 0 0 0 0  0 0 0 0 0 0 0  0 0 0 0 0 0 0  0 0 0 0 0 0 0  0 0 0 0 0 0 0".

(** Column A holds one stone, in row 1, above the empty cell of row 0. *)
Definition input_gap : string :=
  "1  0 0 0 0 0 0 0  2 0 0 0 0 0 0  0 0 0 0 0 0 0  0 0 0 0 0 0 0  0 0 0 0 0 0 0  0 0 0 0 0 0 0".

(** Column A holds one stone, in the top row. *)
Definition input_top_row : string :=
  "1  0 0 0 0 0 0 0  0 0 0 0 0 0 0  0 0 0 0 0 0 0  0 0 0 0 0 0 0  0 0 0 0 0 0 0  2 0 0 0 0 0 0".

(** Column B holds two stones, in rows 1 and 2, above the empty cell of
    row 0. *)
Definition input_gap_two : string :=
  "2  0 0 0 0 0 0 0  0 1 0 0 0 0 0  0 2 0 0 0 0 0  0 0 0 0 0 0 0  0 0 0 0 0 0 0  0 0 0 0 0 0 0".

(** Three stones of player 1 in the bottom row, player 1 to move. *)
Definition input_three : string :=
  "1  1 1 1 0 0 0 0  2 2 0 0 0 0 0  0 0 0 0 0 0 0  0 0 0 0 0 0 0  0 0 0 0 0 0 0  0 0 0 0 0 0 0".

(** Both players have four in a row. *)
Definition input_two_lines : string :=
  "1  1 1 1 1 0 0 0  2 2 2 2 0 0 0  0 0 0 0 0 0 0  0 0 0 0 0 0 0  0 0 0 0 0 0 0  0 0 0 0 0 0 0".

(** A full board without four in a row. *)
Definition input_full : string :=
  "1  1 1 2 2 1 1 2  2 2 1 1 2 2 1  1 1 2 2 1 1 2  2 2 1 1 2 2 1  1 1 2 2 1 1 2  2 2 1 1 2 2 1".

(** The state with no stone and [p] to move. *)
Definition empty_state (p : Z) : State := init_state blank_board p.

(** ** Lines of four *)

(** The four directions [check_winner] looks in from a cell. *)
Inductive Direction : Type :=
  | Horizontal     (* +col *)
  | Vertical       (* +row *)
  | DiagonalRight  (* +row, +col *)
  | DiagonalLeft.  (* +row, -col *)

(** The cell [k] steps ahead of [(i, j)] in direction [d]. *)
Definition ahead (d : Direction) (k : Z) (ij : Z * Z) : Z * Z :=
  match d with
  | Horizontal => (fst ij, snd ij + k)
  | Vertical => (fst ij + k, snd ij)
  | DiagonalRight => (fst ij + k, snd ij + k)
  | DiagonalLeft => (fst ij + k, snd ij - k)
  end.

Definition in_grid (ij : Z * Z) : Prop :=
  0 <= fst ij < ROWS /\ 0 <= snd ij < COLS.

(** Cell [ij] and the next three cells in direction [d] lie on the grid and
    hold the value [p]. *)
Definition four_from (b : list (list Z)) (p : Z) (d : Direction) (ij : Z * Z)
  : Prop :=
  forall k, 0 <= k <= 3 ->
    in_grid (ahead d k ij) /\ cell b (fst (ahead d k ij)) (snd (ahead d k ij)) = p.

Definition line_start (b : list (list Z)) (p : Z) (ij : Z * Z) : Prop :=
  exists d, four_from b p d ij.

Definition has_line (b : list (list Z)) (p : Z) : Prop :=
  exists ij, line_start b p ij.

(** ** Measures and relations for the search *)

(** Number of stones that can still be dropped. *)
Definition free_cells (s : State) : Z :=
  fold_right (fun j acc => Z.max 0 (ROWS - arr_get (top s) j) + acc) 0 cols.

Definition remaining (s : State) : nat := Z.to_nat (free_cells s).

(** Fuel that lets [alphabeta] finish on [s] at [depth]: more than the
    number of free cells, or more than a non-negative depth. *)
Definition enough (fuel : nat) (s : State) (depth : Z) : Prop :=
  (wf_state s /\ (remaining s < fuel)%nat) \/ 0 <= depth < Z.of_nat fuel.


(** How a value [v] returned for the window (alpha, beta) relates to the
    exact minimax value [m]: exact inside the window, an upper bound of [m]
    not above alpha when [m <= alpha], a lower bound of [m] not below beta
    when [beta <= m]. *)
Definition fail_soft (alpha beta m v : Z) : Prop :=
  (m <= alpha -> m <= v <= alpha) /\
  (alpha < m < beta -> v = m) /\
  (beta <= m -> beta <= v <= m).

(** The value [alphabeta_search] computes for the root move [c]. *)
Definition root_value (fuel : nat) (root : State) (depth root_player c : Z)
  : option Z :=
  alphabeta fuel (apply_move root c) (depth - 1) INT_MIN INT_MAX 0 root_player.

(** [minimax n] is the reference for a search at [depth] from [s]: [n] is
    the depth itself, or, for a negative depth, exceeds the free cells. *)
Definition agree (depth : Z) (n : nat) (s : State) : Prop :=
  (0 <= depth /\ n = Z.to_nat depth) \/
  (depth < 0 /\ wf_state s /\ (remaining s < n)%nat).

(** Fuel that lets [alphabeta_search] finish on [root] at [depth]. *)
Definition enough_root (fuel : nat) (root : State) (depth : Z) : Prop :=
  (wf_state root /\ (remaining root <= fuel)%nat) \/ 0 < depth <= Z.of_nat fuel.

(** ** Further notions *)

(** Every cell of the grid is empty or holds a stone of player 1 or 2. *)
Definition cells_ok (b : list (list Z)) : Prop :=
  forall i j, in_grid (i, j) -> cell b i j = 0 \/ cell b i j = 1 \/ cell b i j = 2.

(** No height is negative. *)
Definition heights_nonneg (s : State) : Prop :=
  forall j, 0 <= j < COLS -> 0 <= arr_get (top s) j.

(** [n] successive conversions [scanf("%d", ...)]. *)
Fixpoint scan_ints (n : nat) (inp : string) : option (list Z * string) :=
  match n with
  | O => Some ([], inp)
  | S n' =>
      match scanf_d inp with
      | Some (v, inp') =>
          match scan_ints n' inp' with
          | Some (vs, rest) => Some (v :: vs, rest)
          | None => None
          end
      | None => None
      end
  end.

(** Sum of [f] over a list. *)
Definition sum_over {A : Type} (f : A -> Z) (l : list A) : Z :=
  fold_right (fun x acc => f x + acc) 0 l.

(** The board obtained by storing the integers [vs] in the cells [cells],
    in order. *)
Fixpoint fill_board (cells : list (Z * Z)) (vs : list Z) (b : list (list Z))
  : list (list Z) :=
  match cells, vs with
  | ij :: cells', v :: vs' =>
      fill_board cells' vs' (cell_set b (fst ij) (snd ij) v)
  | _, _ => b
  end.

(** [input_three] with other spacing and with text after the last integer. *)
Definition input_three_trailing : string :=
  "  1 1 1 1 0 0 0 0 2 2 0 0 0 0 0 0 0 0 0 0 0 0 0 0 0 0 0 0 0 0 0 0 0 0 0 0 0 0 0 0 0 0 0 7 end".

(** A board with cell values other than 0, 1 and 2. *)
Definition cells_other_values : string :=
  "0 0 0 0 0 0 0  0 0 0 0 0 0 0  5 0 0 0 0 0 0  0 0 0 0 0 0 0  0 0 0 0 0 0 -3  0 0 0 0 0 0 0".

(** A board without four in a row on which only the top cell of column G
    is free; player 2 to move. *)
Definition input_almost_full : string :=
  "2  1 1 2 2 1 1 2  2 2 1 1 2 2 1  1 1 2 2 1 1 2  2 2 1 1 2 2 1  1 1 2 2 1 1 2  2 2 1 1 2 2 0".

(** Number of non-zero integers that land in column [j] when the board
    integers [vs] are stored in input order, row by row. *)
Definition column_fill (vs : list Z) (j : Z) : Z :=
  count_if (fun i => negb (nth (Z.to_nat (COLS * i + j)) vs 0 =? 0)) rows.

(** A player number and a cell that do not fit an [int]. *)
Definition input_wide : string :=
  "4294967297  0 0 0 4294967296 0 0 0  0 0 0 0 0 0 0  0 0 0 0 0 0 0  0 0 0 0 0 0 0  0 0 0 0 0 0 0  0 0 0 0 0 0 0".

(** A player number and 41 board integers. *)
Definition input_short : string :=
  "1  0 0 0 0 0 0 0  0 0 0 0 0 0 0  0 0 0 0 0 0 0  0 0 0 0 0 0 0  0 0 0 0 0 0 0  0 0 0 0 0 0".

(** ** Arrays: reading after writing *)

Section Arrays.

Lemma arr_get_set_eq (a : list Z) (i v : Z) :
  0 <= i < Z.of_nat (length a) -> arr_get (arr_set a i v) i = v.
Proof.
  intros Hi. unfold arr_get, arr_set.
  destruct (Z.ltb_spec i 0) as [Hneg | _]; [lia |].
  rewrite list_lookup_insert_eq by lia. reflexivity.
Qed.

Lemma arr_get_set_ne (a : list Z) (i k v : Z) :
  k <> i -> arr_get (arr_set a i v) k = arr_get a k.
Proof.
  intros Hne. unfold arr_get, arr_set.
  destruct (Z.ltb_spec i 0); [reflexivity |].
  destruct (Z.ltb_spec k 0); [reflexivity |].
  rewrite list_lookup_insert_ne by lia. reflexivity.
Qed.

Lemma length_arr_set (a : list Z) (i v : Z) :
  length (arr_set a i v) = length a.
Proof.
  unfold arr_set. destruct (i <? 0); [reflexivity | apply length_insert].
Qed.

Lemma cell_set_eq (b : list (list Z)) (i j v : Z) :
  board_shape b -> 0 <= i < ROWS -> 0 <= j < COLS ->
  cell (cell_set b i j v) i j = v.
Proof.
  intros [Hlen Hrows] Hi Hj. unfold cell, cell_set, ROWS, COLS in *.
  destruct (Z.ltb_spec i 0); [lia |].
  destruct (lookup_lt_is_Some_2 b (Z.to_nat i)) as [r Hr]; [lia |].
  rewrite list_lookup_alter_eq, Hr. simpl.
  apply arr_get_set_eq.
  rewrite Forall_forall in Hrows.
  rewrite (Hrows r) by (eapply list_elem_of_lookup_2; eauto).
  lia.
Qed.

Lemma cell_set_ne (b : list (list Z)) (i j v i' j' : Z) :
  i' <> i \/ j' <> j -> cell (cell_set b i j v) i' j' = cell b i' j'.
Proof.
  intros Hne. unfold cell, cell_set.
  destruct (Z.ltb_spec i 0); [reflexivity |].
  destruct (Z.ltb_spec i' 0); [reflexivity |].
  destruct (decide (i' = i)) as [-> | Hi].
  - rewrite list_lookup_alter_eq.
    destruct (b !! Z.to_nat i) as [r |]; simpl; [| reflexivity].
    apply arr_get_set_ne. destruct Hne; congruence.
  - rewrite list_lookup_alter_ne by lia. reflexivity.
Qed.

Lemma cell_set_shape (b : list (list Z)) (i j v : Z) :
  board_shape b -> board_shape (cell_set b i j v).
Proof.
  intros [Hlen Hrows]. unfold cell_set, board_shape.
  destruct (i <? 0); [split; assumption |].
  split; [rewrite length_alter; assumption |].
  apply Forall_alter; [assumption |].
  intros r _ Hr. rewrite length_arr_set. exact Hr.
Qed.

End Arrays.

(** ** Loop ranges and counting *)

Section Counting.

Lemma in_rows (i : Z) : i ∈ rows <-> 0 <= i < ROWS.
Proof. unfold rows. rewrite elem_of_seqZ. unfold ROWS. lia. Qed.

Lemma in_cols (j : Z) : j ∈ cols <-> 0 <= j < COLS.
Proof. unfold cols. rewrite elem_of_seqZ. unfold COLS. lia. Qed.

Lemma in_all_cells (ij : Z * Z) :
  ij ∈ all_cells <-> 0 <= fst ij < ROWS /\ 0 <= snd ij < COLS.
Proof.
  unfold all_cells. rewrite list_elem_of_In, in_flat_map. split.
  - intros (i & Hi & Hin). apply in_map_iff in Hin as (j & <- & Hj).
    apply list_elem_of_In, in_rows in Hi. apply list_elem_of_In, in_cols in Hj.
    simpl. tauto.
  - intros [Hi Hj]. exists (fst ij). split.
    + apply list_elem_of_In, in_rows, Hi.
    + apply in_map_iff. exists (snd ij). split; [destruct ij; reflexivity |].
      apply list_elem_of_In, in_cols, Hj.
Qed.

Lemma NoDup_rows : NoDup rows.
Proof. apply NoDup_seqZ. Qed.

Lemma NoDup_all_cells : NoDup all_cells.
Proof. apply (bool_decide_unpack (NoDup all_cells)). vm_compute. exact I. Qed.

Context {A : Type}.
Implicit Types (P Q : A -> bool) (l : list A).

Lemma count_if_cons P x l :
  count_if P (x :: l) = Z.b2z (P x) + count_if P l.
Proof.
  unfold count_if. simpl. destruct (P x); simpl length; simpl Z.b2z; lia.
Qed.

Lemma count_if_bounds P l : 0 <= count_if P l <= Z.of_nat (length l).
Proof.
  induction l as [| x l IH]; [unfold count_if; simpl; lia |].
  rewrite count_if_cons. simpl length. destruct (P x); simpl Z.b2z; lia.
Qed.

Lemma count_if_ext P Q l :
  (forall y, y ∈ l -> Q y = P y) -> count_if Q l = count_if P l.
Proof.
  induction l as [| x l IH]; intros Hext; [reflexivity |].
  rewrite !count_if_cons, IH, (Hext x).
  - reflexivity.
  - apply list_elem_of_here.
  - intros y Hy. apply Hext. apply list_elem_of_further, Hy.
Qed.

(** Changing the predicate at one position of a duplicate-free list. *)
Lemma count_if_update P Q l x :
  NoDup l -> x ∈ l -> (forall y, y ∈ l -> y <> x -> Q y = P y) ->
  count_if Q l = count_if P l + Z.b2z (Q x) - Z.b2z (P x).
Proof.
  induction l as [| z l IH]; intros Hnd Hin Hext.
  - inversion Hin.
  - apply NoDup_cons in Hnd as [Hz Hnd]. rewrite !count_if_cons.
    apply elem_of_cons in Hin as [-> | Hin].
    + rewrite (count_if_ext P Q l); [lia |].
      intros y Hy. apply Hext; [apply list_elem_of_further, Hy |].
      intros ->. contradiction.
    + rewrite IH; try assumption.
      * rewrite (Hext z); [lia | apply list_elem_of_here |].
        intros ->. contradiction.
      * intros y Hy. apply Hext. apply list_elem_of_further, Hy.
Qed.

End Counting.

(** ** The move model *)

Section Moves.

Implicit Types (s : State) (c : Z).

Lemma copy_state_id s : copy_state s = s.
Proof.
  destruct s as [b t p]. unfold copy_state. simpl. f_equal.
  - rewrite <- (map_id b) at 2. apply map_ext. intros r. apply map_id.
  - apply map_id.
Qed.

Lemma valid_move_iff s c :
  In c (get_valid_moves s) <-> 0 <= c < COLS /\ arr_get (top s) c < ROWS.
Proof.
  unfold get_valid_moves. rewrite filter_In, <- list_elem_of_In, in_cols.
  rewrite Z.ltb_lt. tauto.
Qed.

Lemma apply_move_wf s c : wf_state s -> wf_state (apply_move s c).
Proof.
  intros (Hb & Hr & Ht). unfold wf_state, apply_move. simpl.
  destruct (cell_set_shape (board s) (arr_get (top s) c) c (player s)) as [? ?];
    [split; assumption |].
  rewrite length_arr_set. auto.
Qed.

Lemma apply_move_top_eq s c :
  wf_state s -> 0 <= c < COLS ->
  arr_get (top (apply_move s c)) c = arr_get (top s) c + 1.
Proof.
  intros (_ & _ & Ht) Hc. simpl. apply arr_get_set_eq.
  rewrite Ht. unfold COLS in *. lia.
Qed.

Lemma apply_move_top_ne s c j :
  j <> c -> arr_get (top (apply_move s c)) j = arr_get (top s) j.
Proof. intros Hne. simpl. apply arr_get_set_ne, Hne. Qed.

Lemma apply_move_cell_eq s c :
  wf_state s -> 0 <= c < COLS -> 0 <= arr_get (top s) c < ROWS ->
  cell (board (apply_move s c)) (arr_get (top s) c) c = player s.
Proof.
  intros (Hb & Hr & _) Hc Ht. simpl. apply cell_set_eq; [split |..]; assumption.
Qed.

Lemma apply_move_cell_ne s c i j :
  i <> arr_get (top s) c \/ j <> c ->
  cell (board (apply_move s c)) i j = cell (board s) i j.
Proof. intros Hne. simpl. apply cell_set_ne, Hne. Qed.

(** The number of occupied cells after a move: the stone adds one unless it
    replaces a stone that was already in the landing cell. *)
Lemma apply_move_occupied s c :
  wf_state s -> 0 <= c < COLS -> 0 <= arr_get (top s) c < ROWS ->
  occupied (board (apply_move s c)) =
    occupied (board s) + Z.b2z (negb (player s =? 0))
      - Z.b2z (negb (cell (board s) (arr_get (top s) c) c =? 0)).
Proof.
  intros Hwf Hc Ht. unfold occupied.
  rewrite (count_if_update
             (fun ij => negb (cell (board s) (fst ij) (snd ij) =? 0))
             _ all_cells (arr_get (top s) c, c)).
  - simpl fst. simpl snd. rewrite apply_move_cell_eq by assumption. reflexivity.
  - apply NoDup_all_cells.
  - apply in_all_cells. simpl. tauto.
  - intros [i j] _ Hne. simpl fst. simpl snd.
    rewrite apply_move_cell_ne; [reflexivity |].
    destruct (decide (i = arr_get (top s) c)); [| tauto].
    destruct (decide (j = c)); [| tauto]. subst. contradiction.
Qed.

Lemma apply_move_column_stones s c j :
  wf_state s -> 0 <= c < COLS -> 0 <= arr_get (top s) c < ROWS ->
  column_stones (board (apply_move s c)) j =
    if decide (j = c)
    then column_stones (board s) c + Z.b2z (negb (player s =? 0))
           - Z.b2z (negb (cell (board s) (arr_get (top s) c) c =? 0))
    else column_stones (board s) j.
Proof.
  intros Hwf Hc Ht. unfold column_stones. destruct (decide (j = c)) as [-> | Hj].
  - rewrite (count_if_update (fun i => negb (cell (board s) i c =? 0))
               _ rows (arr_get (top s) c)).
    + rewrite apply_move_cell_eq by assumption. reflexivity.
    + apply NoDup_rows.
    + apply in_rows, Ht.
    + intros i _ Hne. rewrite apply_move_cell_ne; [reflexivity | tauto].
  - apply count_if_ext. intros i _.
    rewrite apply_move_cell_ne; [reflexivity | tauto].
Qed.

End Moves.

(** ** The root state built by [main] *)

Section RootState.

Implicit Types (b : list (list Z)) (s : State).

Lemma blank_board_shape : board_shape blank_board.
Proof. split; [reflexivity | repeat constructor]. Qed.

Lemma read_board_shape cells inp b b' rest :
  board_shape b -> read_board cells inp b = inl (b', rest) -> board_shape b'.
Proof.
  revert inp b. induction cells as [| ij cells IH]; intros inp b Hb Hread.
  - simpl in Hread. congruence.
  - simpl in Hread. destruct (scanf_d inp) as [[v inp'] |]; [| discriminate].
    eapply IH; [| exact Hread]. apply cell_set_shape, Hb.
Qed.

(** The board read does not depend on what [root_state] held before: two
    runs of the reading loop on the same input agree on every cell of the
    grid that the loop visits, and on every cell where the initial boards
    agreed. *)
Lemma read_board_initial_content cells inp b0 b0' b b' rest rest' :
  board_shape b0 -> board_shape b0' ->
  (forall ij, In ij cells -> in_grid ij) ->
  read_board cells inp b0 = inl (b, rest) ->
  read_board cells inp b0' = inl (b', rest') ->
  rest = rest' /\
  forall i j,
    In (i, j) cells \/ cell b0 i j = cell b0' i j -> cell b i j = cell b' i j.
Proof.
  revert inp b0 b0'.
  induction cells as [| ij cells IH]; intros inp b0 b0' Hs Hs' Hgrid H H'.
  - simpl in H, H'. injection H as <- <-. injection H' as <- <-.
    split; [reflexivity |]. intros i j [[] | Heq]. exact Heq.
  - simpl in H, H'. destruct (scanf_d inp) as [[v inp'] |]; [| discriminate].
    destruct (IH inp' _ _ (cell_set_shape _ (fst ij) (snd ij) v Hs)
                (cell_set_shape _ (fst ij) (snd ij) v Hs')
                (fun x Hx => Hgrid x (or_intror Hx)) H H') as [Hrest Hcells].
    split; [exact Hrest |]. intros i j Hij. apply Hcells.
    destruct (Hgrid ij (or_introl eq_refl)) as [Hi Hj].
    destruct (decide (i = fst ij /\ j = snd ij)) as [[-> ->] | Hne].
    + right. rewrite !cell_set_eq by assumption. reflexivity.
    + assert (i <> fst ij \/ j <> snd ij) as Hne'
        by (destruct (decide (i = fst ij)); [right; tauto | left; assumption]).
      destruct Hij as [[-> | Hin] | Heq].
      * exfalso. apply Hne. split; reflexivity.
      * left. exact Hin.
      * right. rewrite !cell_set_ne by exact Hne'. exact Heq.
Qed.

Lemma count_column_loop b j l a :
  fold_left (fun t i => if cell b i j =? 0 then t else t + 1) l a
  = a + count_if (fun i => negb (cell b i j =? 0)) l.
Proof.
  revert a. induction l as [| i l IH]; intros a.
  - unfold count_if. simpl. lia.
  - simpl fold_left. rewrite IH, count_if_cons.
    destruct (cell b i j =? 0); simpl; lia.
Qed.

Lemma count_column_eq b j : count_column b j = column_stones b j.
Proof. unfold count_column, column_stones. rewrite count_column_loop. lia. Qed.

Lemma init_top_eq b : init_top b = map (count_column b) cols.
Proof. reflexivity. Qed.

Lemma small_column (j : Z) :
  0 <= j < COLS -> j = 0 \/ j = 1 \/ j = 2 \/ j = 3 \/ j = 4 \/ j = 5 \/ j = 6.
Proof. unfold COLS. lia. Qed.

Lemma init_top_get b j :
  0 <= j < COLS -> arr_get (init_top b) j = column_stones b j.
Proof.
  intros Hj. rewrite init_top_eq, <- count_column_eq.
  destruct (small_column j Hj) as [-> | [-> | [-> | [-> | [-> | [-> | ->]]]]]];
    reflexivity.
Qed.

Lemma init_state_wf b p : board_shape b -> wf_state (init_state b p).
Proof. intros [Hlen Hrows]. repeat split; assumption. Qed.

Lemma init_state_heights_ok b p : heights_ok (init_state b p).
Proof. intros j Hj. simpl. apply init_top_get, Hj. Qed.

End RootState.

(** ** Packed columns *)

Section Packed.

Implicit Types (s : State) (c : Z).

Lemma is_player_other p : is_player p -> is_player (3 - p) /\ 3 - p <> p.
Proof. intros [-> | ->]; unfold is_player; lia. Qed.

Lemma packed_landing_empty s c :
  packed s -> 0 <= c < COLS -> arr_get (top s) c < ROWS ->
  0 <= arr_get (top s) c /\ cell (board s) (arr_get (top s) c) c = 0.
Proof.
  intros Hp Hc Ht. destruct (Hp c Hc) as [Hrange Hcells]. split; [lia |].
  destruct (Z.eq_dec (cell (board s) (arr_get (top s) c) c) 0) as [| Hne];
    [assumption |].
  apply Hcells in Hne; lia.
Qed.

Lemma apply_move_packed s c :
  wf_state s -> player s <> 0 -> packed s -> In c (get_valid_moves s) ->
  packed (apply_move s c).
Proof.
  intros Hwf Hpl Hp Hin. apply valid_move_iff in Hin as [Hc Ht].
  destruct (packed_landing_empty s c Hp Hc Ht) as [Ht0 _].
  intros j Hj. destruct (Hp j Hj) as [Hrange Hcells].
  destruct (decide (j = c)) as [-> | Hne].
  - rewrite apply_move_top_eq by assumption. split; [lia |].
    intros i Hi. destruct (decide (i = arr_get (top s) c)) as [-> | Hi'].
    + rewrite apply_move_cell_eq by (assumption || lia). split; [lia | auto].
    + rewrite apply_move_cell_ne by tauto. rewrite Hcells by assumption. lia.
  - rewrite apply_move_top_ne by assumption. split; [assumption |].
    intros i Hi. rewrite apply_move_cell_ne by tauto. apply Hcells, Hi.
Qed.

Lemma count_below (t : Z) :
  0 <= t <= ROWS -> count_if (fun i => i <? t) rows = t.
Proof.
  unfold ROWS. intros Ht.
  assert (t = 0 \/ t = 1 \/ t = 2 \/ t = 3 \/ t = 4 \/ t = 5 \/ t = 6)
    as [-> | [-> | [-> | [-> | [-> | [-> | ->]]]]]] by lia; reflexivity.
Qed.

Lemma packed_heights_ok s : packed s -> heights_ok s.
Proof.
  intros Hp j Hj. destruct (Hp j Hj) as [Hrange Hcells].
  unfold column_stones.
  rewrite (count_if_ext (fun i => i <? arr_get (top s) j)).
  - symmetry. apply count_below, Hrange.
  - intros i Hi. apply in_rows in Hi. specialize (Hcells i Hi).
    destruct (Z.eqb_spec (cell (board s) i j) 0) as [He | He];
      destruct (Z.ltb_spec i (arr_get (top s) j)); simpl; try reflexivity.
    + apply Hcells in H. contradiction.
    + apply Hcells in He. lia.
Qed.

Lemma legal_play_invariants s s' :
  wf_state s -> is_player (player s) -> packed s -> legal_play s s' ->
  wf_state s' /\ is_player (player s') /\ packed s'.
Proof.
  intros Hwf Hpl Hp Hplay. induction Hplay as [| s' c Hplay IH Hin].
  - auto.
  - destruct IH as (Hwf' & Hpl' & Hp'). split; [apply apply_move_wf, Hwf' |].
    split; [apply is_player_other, Hpl' |].
    apply apply_move_packed; try assumption.
    destruct Hpl' as [-> | ->]; lia.
Qed.

End Packed.

(** ** Results on the move model *)

Lemma packedb_packed (s : State) : packedb s = true -> packed s.
Proof.
  unfold packedb. rewrite forallb_forall. intros H j Hj.
  specialize (H j (proj1 (list_elem_of_In _ _) (proj2 (in_cols j) Hj))).
  apply andb_prop in H as [H Hcells]. apply andb_prop in H as [H0 H1].
  split; [lia |]. intros i Hi. rewrite forallb_forall in Hcells.
  specialize (Hcells i (proj1 (list_elem_of_In _ _) (proj2 (in_rows i) Hi))).
  apply Bool.eqb_prop in Hcells.
  destruct (Z.eqb_spec (cell (board s) i j) 0) as [He | He];
    destruct (Z.ltb_spec i (arr_get (top s) j)); simpl in Hcells;
    try discriminate; split; intros; try lia; try assumption; contradiction.
Qed.

Lemma empty_state_wf (p : Z) : wf_state (empty_state p).
Proof. apply init_state_wf, blank_board_shape. Qed.

Lemma root_state_of_inv (input : string) (s : State) :
  root_state_of input = Some s ->
  exists p inp b rest,
    scanf_d input = Some (p, inp) /\ is_player p /\
    read_board all_cells inp blank_board = inl (b, rest) /\
    s = init_state b p.
Proof.
  unfold root_state_of. intros H.
  destruct (scanf_d input) as [[p inp] |]; [| discriminate].
  assert (is_player p) as Hp.
  { unfold is_player.
    destruct (Z.eqb_spec p 1); [auto |]. destruct (Z.eqb_spec p 2); [auto |].
    discriminate H. }
  replace (negb (p =? 1) && negb (p =? 2)) with false in H
    by (destruct Hp as [-> | ->]; reflexivity).
  destruct (read_board all_cells inp blank_board) as [[b rest] | ?] eqn:Hb;
    [| discriminate].
  injection H as <-. exists p, inp, b, rest. auto.
Qed.

Lemma root_state_of_wf (input : string) (s : State) :
  root_state_of input = Some s ->
  wf_state s /\ is_player (player s) /\ heights_ok s.
Proof.
  intros H. apply root_state_of_inv in H as (p & inp & b & rest & _ & Hp & Hb & ->).
  split; [| split].
  - apply init_state_wf. eapply read_board_shape; [apply blank_board_shape | exact Hb].
  - exact Hp.
  - apply init_state_heights_ok.
Qed.

(** ** Reading the board *)

Section Reading.

Implicit Types (b : list (list Z)) (cells : list (Z * Z)).

Lemma read_board_frame cells inp b0 b rest ij :
  read_board cells inp b0 = inl (b, rest) -> ~ In ij cells ->
  cell b (fst ij) (snd ij) = cell b0 (fst ij) (snd ij).
Proof.
  revert inp b0. induction cells as [| ij0 cells IH]; intros inp b0 H Hnot.
  - simpl in H. injection H as <- <-. reflexivity.
  - simpl in H. destruct (scanf_d inp) as [[v inp'] |]; [| discriminate].
    rewrite (IH _ _ H) by (intros Hin; apply Hnot; right; exact Hin).
    apply cell_set_ne.
    destruct (decide (fst ij = fst ij0)) as [H1 |]; [| left; assumption].
    destruct (decide (snd ij = snd ij0)) as [H2 |]; [| right; assumption].
    exfalso. apply Hnot. left. destruct ij, ij0. simpl in *. congruence.
Qed.

(** A successful run stores the integers in the order of the cells. *)
Lemma read_board_stores cells inp b0 b rest :
  board_shape b0 -> NoDup cells -> (forall ij, In ij cells -> in_grid ij) ->
  read_board cells inp b0 = inl (b, rest) ->
  exists vs,
    scan_ints (length cells) inp = Some (vs, rest) /\
    length vs = length cells /\
    forall k ij, cells !! k = Some ij ->
      cell b (fst ij) (snd ij) = nth k vs 0.
Proof.
  revert inp b0. induction cells as [| ij0 cells IH]; intros inp b0 Hs Hnd Hg H.
  - simpl in H. injection H as <- <-. exists []. repeat split.
    intros k ij Hk. discriminate Hk.
  - apply NoDup_cons in Hnd as [Hnot Hnd].
    simpl in H. simpl scan_ints.
    destruct (scanf_d inp) as [[v inp'] |]; [| discriminate].
    destruct (IH inp' _ (cell_set_shape _ (fst ij0) (snd ij0) v Hs) Hnd
                (fun x Hx => Hg x (or_intror Hx)) H)
      as (vs & Hscan & Hlen & Hcells).
    rewrite Hscan. exists (v :: vs). split; [reflexivity |].
    split; [simpl; lia |]. intros [| k] ij Hk.
    + simpl in Hk. injection Hk as <-. simpl nth.
      rewrite (read_board_frame _ _ _ _ _ ij0 H)
        by (rewrite <- list_elem_of_In; exact Hnot).
      destruct (Hg ij0 (or_introl eq_refl)) as [Hi Hj].
      apply cell_set_eq; assumption.
    + simpl in Hk. simpl nth. apply Hcells, Hk.
Qed.

(** A failed run stops at the first cell whose conversion fails. *)
Lemma read_board_stops cells inp b0 ij :
  read_board cells inp b0 = inr ij ->
  scan_ints (length cells) inp = None /\
  exists k vs rest,
    cells !! k = Some ij /\ scan_ints k inp = Some (vs, rest) /\
    scanf_d rest = None.
Proof.
  revert inp b0. induction cells as [| ij0 cells IH]; intros inp b0 H.
  - discriminate H.
  - simpl in H. simpl scan_ints.
    destruct (scanf_d inp) as [[v inp'] |] eqn:Hscan.
    + destruct (IH _ _ H) as (Hnone & k & vs & rest & Hk & Hvs & Hfail).
      rewrite Hnone. split; [reflexivity |].
      exists (S k), (v :: vs), rest. simpl. rewrite Hscan, Hvs. auto.
    + injection H as <-. split; [reflexivity |].
      exists O, [], inp. auto.
Qed.

Lemma small_row (i : Z) :
  0 <= i < ROWS -> i = 0 \/ i = 1 \/ i = 2 \/ i = 3 \/ i = 4 \/ i = 5.
Proof. unfold ROWS. lia. Qed.

(** Cell (i, j) is visited at position [COLS * i + j] of the scan. *)
Lemma all_cells_index (i j : Z) :
  in_grid (i, j) -> all_cells !! Z.to_nat (COLS * i + j) = Some (i, j).
Proof.
  intros [Hi Hj]. simpl in Hi, Hj.
  destruct (small_row i Hi) as [-> | [-> | [-> | [-> | [-> | ->]]]]];
    destruct (small_column j Hj) as [-> | [-> | [-> | [-> | [-> | [-> | ->]]]]]];
    reflexivity.
Qed.

Lemma read_board_fill cells inp b0 vs rest :
  scan_ints (length cells) inp = Some (vs, rest) ->
  read_board cells inp b0 = inl (fill_board cells vs b0, rest).
Proof.
  revert inp b0 vs. induction cells as [| ij cells IH]; intros inp b0 vs H.
  - simpl in H. injection H as <- <-. reflexivity.
  - simpl in H. simpl read_board.
    destruct (scanf_d inp) as [[v inp'] |]; [| discriminate].
    destruct (scan_ints (length cells) inp') as [[vs' rest'] |] eqn:Hscan;
      [| discriminate].
    injection H as <- <-. simpl fill_board. apply IH, Hscan.
Qed.

End Reading.

(** ** The input as a sequence of integers *)

Section Integers.

Lemma to_int_range (z : Z) : INT_MIN <= to_int z <= INT_MAX.
Proof.
  unfold to_int, INT_MIN, INT_MAX.
  pose proof (Z.mod_pos_bound (z + 2147483648) 4294967296). lia.
Qed.

(** A number that fits an [int] is stored as it is. *)
Lemma to_int_fits (z : Z) : INT_MIN <= z <= INT_MAX -> to_int (to_long z) = z.
Proof.
  unfold to_int, to_long, INT_MIN, INT_MAX, LONG_MIN, LONG_MAX. intros H.
  replace (Z.max (-9223372036854775808) (Z.min 9223372036854775807 z)) with z
    by lia.
  rewrite Z.mod_small; lia.
Qed.

Lemma scanf_d_range (inp : string) (v : Z) (rest : string) :
  scanf_d inp = Some (v, rest) -> INT_MIN <= v <= INT_MAX.
Proof.
  unfold scanf_d. destruct (read_sign (skip_space inp)) as [neg inp'].
  destruct inp' as [| c t]; [discriminate |].
  destruct (digit_of c) as [d |]; [| discriminate].
  destruct (read_digits d t) as [n rest']. intros [= <- _]. apply to_int_range.
Qed.

Lemma scan_ints_range (n : nat) (inp : string) (vs : list Z) (rest : string) :
  scan_ints n inp = Some (vs, rest) ->
  length vs = n /\ forall k, INT_MIN <= nth k vs 0 <= INT_MAX.
Proof.
  revert inp vs. induction n as [| n IH]; intros inp vs H.
  - simpl in H. injection H as <- <-. split; [reflexivity |].
    intros [| k]; simpl; unfold INT_MIN, INT_MAX; lia.
  - simpl in H. destruct (scanf_d inp) as [[v inp'] |] eqn:Hv; [| discriminate].
    destruct (scan_ints n inp') as [[vs' rest'] |] eqn:Hvs; [| discriminate].
    injection H as <- <-. destruct (IH _ _ Hvs) as [Hlen Hr].
    split; [simpl; lia |]. intros [| k]; simpl; [| apply Hr].
    apply (scanf_d_range _ _ _ Hv).
Qed.

(** The heights that [main] computes, read off the integers. *)
Lemma column_stones_fill (b : list (list Z)) (vs : list Z) (j : Z) :
  (forall i j, in_grid (i, j) ->
     cell b i j = nth (Z.to_nat (COLS * i + j)) vs 0) ->
  0 <= j < COLS -> column_stones b j = column_fill vs j.
Proof.
  intros Hcells Hj. unfold column_stones, column_fill.
  apply count_if_ext. intros i Hi. apply in_rows in Hi.
  rewrite (Hcells i j) by (split; assumption). reflexivity.
Qed.

(** A player number 1 or 2 followed by ROWS * COLS integers is all that
    [main] asks of its input: the root state holds the integers, unchecked,
    in row-major order. *)
Lemma root_state_of_scan (input rest tail : string) (p : Z) (vs : list Z) :
  scanf_d input = Some (p, rest) -> is_player p ->
  scan_ints 42 rest = Some (vs, tail) ->
  exists s,
    root_state_of input = Some s /\ player s = p /\ wf_state s /\
    heights_ok s /\
    (forall i j, in_grid (i, j) ->
       cell (board s) i j = nth (Z.to_nat (COLS * i + j)) vs 0) /\
    (forall j, 0 <= j < COLS -> arr_get (top s) j = column_fill vs j).
Proof.
  intros Hp Hpl Hvs.
  pose proof (read_board_fill all_cells rest blank_board vs tail Hvs) as Hb.
  assert (root_state_of input =
            Some (init_state (fill_board all_cells vs blank_board) p)) as Hroot.
  { unfold root_state_of. rewrite Hp, Hb.
    destruct Hpl as [-> | ->]; reflexivity. }
  exists (init_state (fill_board all_cells vs blank_board) p).
  destruct (root_state_of_wf _ _ Hroot) as (Hwf & _ & Hok).
  assert (forall i j, in_grid (i, j) ->
            cell (fill_board all_cells vs blank_board) i j =
              nth (Z.to_nat (COLS * i + j)) vs 0) as Hcells.
  { destruct (read_board_stores all_cells rest blank_board
                (fill_board all_cells vs blank_board) tail
                blank_board_shape NoDup_all_cells) as (vs' & Hvs' & _ & Hc);
      [| exact Hb |].
    - intros ij Hin. apply in_all_cells, list_elem_of_In, Hin.
    - change (length all_cells) with 42%nat in Hvs'.
      rewrite Hvs in Hvs'. injection Hvs' as <-.
      intros i j Hg. apply (Hc _ (i, j)), all_cells_index, Hg. }
  split; [exact Hroot |]. split; [reflexivity |]. split; [exact Hwf |].
  split; [exact Hok |]. split; [exact Hcells |].
  intros j Hj. rewrite (Hok j Hj). apply column_stones_fill; assumption.
Qed.

Lemma root_state_of_scan_inv (input : string) (s : State) :
  root_state_of input = Some s ->
  exists p rest vs tail,
    scanf_d input = Some (p, rest) /\ is_player p /\
    scan_ints 42 rest = Some (vs, tail).
Proof.
  intros H.
  destruct (root_state_of_inv input s H) as (p & rest & b & tail & Hp & Hpl & Hb & _).
  destruct (read_board_stores all_cells rest blank_board b tail
              blank_board_shape NoDup_all_cells) as (vs & Hvs & _);
    [| exact Hb |].
  - intros ij Hin. apply in_all_cells, list_elem_of_In, Hin.
  - exists p, rest, vs, tail. auto.
Qed.

Lemma count_if_mono {A : Type} (P Q : A -> bool) (l : list A) :
  (forall x, x ∈ l -> Q x = true -> P x = true) ->
  count_if Q l <= count_if P l.
Proof.
  induction l as [| x l IH]; intros H; [reflexivity |].
  rewrite !count_if_cons.
  assert (count_if Q l <= count_if P l) as Hl
    by (apply IH; intros y Hy; apply H, list_elem_of_further, Hy).
  specialize (H x (list_elem_of_here _ _)).
  destruct (Q x); [rewrite H by reflexivity; lia |].
  destruct (P x); simpl; lia.
Qed.

Lemma count_upto (t : Z) :
  0 <= t < ROWS -> count_if (fun i => i <=? t) rows = t + 1.
Proof.
  unfold ROWS. intros Ht.
  assert (t = 0 \/ t = 1 \/ t = 2 \/ t = 3 \/ t = 4 \/ t = 5)
    as [-> | [-> | [-> | [-> | [-> | ->]]]]] by lia; reflexivity.
Qed.

Lemma forallb_false {A : Type} (f : A -> bool) (l : list A) :
  forallb f l = false -> exists x, In x l /\ f x = false.
Proof.
  induction l as [| x l IH]; [discriminate |]. simpl.
  destruct (f x) eqn:Hx; [| eauto]. intros H.
  destruct (IH H) as (y & Hy & Hf). eauto.
Qed.

(** When the heights are the column counts, an occupied landing cell lies
    above an empty cell of its column. *)
Lemma occupied_landing_above_gap (s : State) (c : Z) :
  heights_ok s -> 0 <= c < COLS -> arr_get (top s) c < ROWS ->
  cell (board s) (arr_get (top s) c) c <> 0 ->
  exists i, 0 <= i < arr_get (top s) c /\ cell (board s) i c = 0.
Proof.
  intros Hok Hc Ht Hland.
  assert (0 <= arr_get (top s) c) as Ht0
    by (rewrite (Hok c Hc); apply count_if_bounds).
  destruct (forallb (fun i => (arr_get (top s) c <=? i)
                              || negb (cell (board s) i c =? 0)) rows)
    eqn:Hall.
  - exfalso. rewrite forallb_forall in Hall.
    pose proof (count_if_mono (fun i => negb (cell (board s) i c =? 0))
                  (fun i => i <=? arr_get (top s) c) rows) as Hmono.
    rewrite count_upto in Hmono by lia.
    fold (column_stones (board s) c) in Hmono. rewrite <- (Hok c Hc) in Hmono.
    assert (arr_get (top s) c + 1 <= arr_get (top s) c); [| lia].
    apply Hmono. intros i Hi Hle. apply Z.leb_le in Hle.
    destruct (Z.eq_dec i (arr_get (top s) c)) as [-> | Hne].
    + apply negb_true_iff, Z.eqb_neq, Hland.
    + specialize (Hall i (proj1 (list_elem_of_In _ _) Hi)).
      apply orb_prop in Hall as [Hge | Hnz]; [| exact Hnz].
      apply Z.leb_le in Hge. lia.
  - apply forallb_false in Hall as (i & Hi & Hf).
    apply list_elem_of_In, in_rows in Hi.
    apply orb_false_elim in Hf as [Hlt Hz].
    apply Z.leb_gt in Hlt. apply negb_false_iff, Z.eqb_eq in Hz.
    exists i. split; [lia | exact Hz].
Qed.

End Integers.

(** C5, as amended.  A move into a valid column raises the height of the
    column by exactly 1 and leaves every other height, and every cell but
    the landing cell [board[top[c]][c]], unchanged; the landing cell receives
    the mover's stone and the other player is to move.  The number of
    occupied cells grows by exactly one when the landing cell was empty, and
    stays the same when it was occupied. *)
Theorem apply_move_frame (s : State) (c : Z) :
  wf_state s -> is_player (player s) ->
  0 <= c < COLS -> 0 <= arr_get (top s) c < ROWS ->
  (cell (board s) (arr_get (top s) c) c = 0 ->
   occupied (board (apply_move s c)) = occupied (board s) + 1) /\
  (cell (board s) (arr_get (top s) c) c <> 0 ->
   occupied (board (apply_move s c)) = occupied (board s)) /\
  arr_get (top (apply_move s c)) c = arr_get (top s) c + 1 /\
  (forall j, j <> c -> arr_get (top (apply_move s c)) j = arr_get (top s) j) /\
  (forall i j, j <> c -> cell (board (apply_move s c)) i j = cell (board s) i j) /\
  (forall i, i <> arr_get (top s) c ->
             cell (board (apply_move s c)) i c = cell (board s) i c) /\
  cell (board (apply_move s c)) (arr_get (top s) c) c = player s /\
  is_player (player (apply_move s c)) /\
  player (apply_move s c) <> player s.
Proof.
  intros Hwf Hpl Hc Ht.
  pose proof (apply_move_occupied s c Hwf Hc Ht) as Hocc.
  replace (player s =? 0) with false in Hocc
    by (destruct Hpl as [-> | ->]; reflexivity).
  change (Z.b2z (negb false)) with 1 in Hocc.
  split; [| split; [| split; [| split; [| split; [| split; [| split]]]]]].
  - intros Hland. rewrite Hocc, Hland. change (Z.b2z (negb (0 =? 0))) with 0. lia.
  - intros Hland. apply Z.eqb_neq in Hland. rewrite Hocc, Hland.
    change (Z.b2z (negb false)) with 1. lia.
  - apply apply_move_top_eq; assumption.
  - intros j Hj. apply apply_move_top_ne, Hj.
  - intros i j Hj. apply apply_move_cell_ne. tauto.
  - intros i Hi. apply apply_move_cell_ne. tauto.
  - apply apply_move_cell_eq; assumption.
  - apply (is_player_other _ Hpl).
Qed.

Lemma apply_move_frame_witness :
  occupied (board (apply_move (empty_state 1) 3)) = occupied (board (empty_state 1)) + 1.
Proof.
  destruct (apply_move_frame (empty_state 1) 3) as (Hcount & _).
  - apply empty_state_wf.
  - left. reflexivity.
  - unfold COLS. lia.
  - vm_compute. split; [intros H; discriminate H | reflexivity].
  - apply Hcount. reflexivity.
Defined.

(** C5, counterexample.  [main] accepts [input_gap]; in the root state it
    builds, column 0 is valid and one cell is occupied, yet after the move
    into column 0 still one cell is occupied. *)
Lemma apply_move_gap_counterexample :
  exists s, root_state_of input_gap = Some s /\
    In 0 (get_valid_moves s) /\
    occupied (board s) = 1 /\
    occupied (board (apply_move s 0)) <> 1 + 1.
Proof.
  eexists. split; [vm_compute; reflexivity |].
  split; [vm_compute; auto |]. split; [reflexivity |].
  vm_compute. discriminate.
Qed.

(** C10, as amended.  A move into a valid column adds exactly one occupied
    cell iff the landing cell is empty.  [main] stores any ROWS * COLS
    integers it can read, unchecked, so the landing cell of a root state can
    be occupied; when it is, the stone in it is replaced by the mover's and
    the number of occupied cells stays the same.  With heights that are the
    column counts (as in every root state) an occupied landing cell lies
    above an empty cell of its column.  No cell other than the landing cell
    is changed by the move, so a stone above an empty cell elsewhere than in
    the landing row is not overwritten. *)
Theorem apply_move_occupied_iff (s : State) (c : Z) :
  wf_state s -> is_player (player s) ->
  0 <= c < COLS -> 0 <= arr_get (top s) c < ROWS ->
  (occupied (board (apply_move s c)) = occupied (board s) + 1
     <-> cell (board s) (arr_get (top s) c) c = 0) /\
  (cell (board s) (arr_get (top s) c) c <> 0 ->
     occupied (board (apply_move s c)) = occupied (board s) /\
     cell (board (apply_move s c)) (arr_get (top s) c) c = player s) /\
  (forall i j, i <> arr_get (top s) c \/ j <> c ->
     cell (board (apply_move s c)) i j = cell (board s) i j) /\
  (heights_ok s -> cell (board s) (arr_get (top s) c) c <> 0 ->
   exists i, 0 <= i < arr_get (top s) c /\ cell (board s) i c = 0) /\
  (forall input rest tail p vs,
     scanf_d input = Some (p, rest) -> is_player p ->
     scan_ints 42 rest = Some (vs, tail) ->
     exists s0,
       root_state_of input = Some s0 /\ heights_ok s0 /\
       forall i j, in_grid (i, j) ->
         cell (board s0) i j = nth (Z.to_nat (COLS * i + j)) vs 0).
Proof.
  intros Hwf Hpl Hc Ht.
  pose proof (apply_move_occupied s c Hwf Hc Ht) as Hocc.
  assert ((player s =? 0) = false) as Hp0
    by (destruct Hpl as [-> | ->]; reflexivity).
  rewrite Hp0 in Hocc. change (Z.b2z (negb false)) with 1 in Hocc.
  split; [| split; [| split; [| split]]].
  - revert Hocc.
    destruct (Z.eqb_spec (cell (board s) (arr_get (top s) c) c) 0) as [He | He];
      intros Hocc.
    + change (Z.b2z (negb true)) with 0 in Hocc. split; [auto | lia].
    + change (Z.b2z (negb false)) with 1 in Hocc. split; [lia | contradiction].
  - intros He. apply Z.eqb_neq in He. rewrite He in Hocc.
    change (Z.b2z (negb false)) with 1 in Hocc.
    split; [lia | apply apply_move_cell_eq; assumption].
  - intros i j Hne. apply apply_move_cell_ne, Hne.
  - intros Hok Hland. apply occupied_landing_above_gap; try assumption. lia.
  - intros input rest tail p vs Hp Hplayer Hvs.
    destruct (root_state_of_scan input rest tail p vs Hp Hplayer Hvs)
      as (s0 & Hroot & _ & _ & Hok & Hcells & _).
    exists s0. auto.
Qed.

Lemma apply_move_occupied_iff_witness :
  exists s, root_state_of input_gap_two = Some s /\
    cell (board s) (arr_get (top s) 1) 1 <> 0 /\
    occupied (board (apply_move s 1)) = occupied (board s).
Proof.
  eexists. split; [vm_compute; reflexivity |].
  split; [vm_compute; intros H; discriminate H |].
  eapply (apply_move_occupied_iff _ 1).
  - repeat split; repeat constructor.
  - right. reflexivity.
  - unfold COLS. lia.
  - vm_compute. split; [intros H; discriminate H | reflexivity].
  - vm_compute. intros H; discriminate H.
Defined.

(** C10, counterexample.  In the root state built from [input_top_row],
    column 0 holds a stone (row 5) above an empty cell (row 0) and is valid;
    the move into it lands on the empty cell of row 1, the stone of row 5
    stays, and the number of occupied cells grows by one. *)
Lemma stone_above_gap_not_overwritten :
  exists s, root_state_of input_top_row = Some s /\
    cell (board s) 5 0 <> 0 /\ cell (board s) 0 0 = 0 /\
    In 0 (get_valid_moves s) /\
    cell (board (apply_move s 0)) 5 0 = cell (board s) 5 0 /\
    occupied (board (apply_move s 0)) = occupied (board s) + 1 /\
    occupied (board (apply_move s 0)) <> occupied (board s).
Proof.
  eexists. split; [vm_compute; reflexivity |].
  split; [vm_compute; discriminate |]. split; [reflexivity |].
  split; [vm_compute; auto |]. split; [reflexivity |].
  split; [reflexivity | vm_compute; discriminate].
Qed.

Lemma apply_move_heights_ok (s : State) (c : Z) :
  wf_state s -> player s <> 0 -> heights_ok s ->
  In c (get_valid_moves s) -> cell (board s) (arr_get (top s) c) c = 0 ->
  heights_ok (apply_move s c).
Proof.
  intros Hwf Hpl Hok Hin Hland. apply valid_move_iff in Hin as [Hc Ht].
  assert (0 <= arr_get (top s) c) as Ht0.
  { rewrite (Hok c Hc). apply count_if_bounds. }
  intros j Hj. rewrite apply_move_column_stones by (assumption || lia).
  destruct (decide (j = c)) as [-> | Hne].
  - rewrite apply_move_top_eq by assumption. rewrite Hland, (Hok c Hc).
    apply Z.eqb_neq in Hpl. rewrite Hpl. simpl. lia.
  - rewrite apply_move_top_ne by assumption. apply Hok, Hj.
Qed.

(** C6, as amended.  The height invariant holds in the root state [main]
    builds from any input it accepts; a move into a valid column whose
    landing cell is empty preserves it; and from a state whose columns are
    packed from row 0 upward every sequence of valid moves leads to a state
    that satisfies it. *)
Theorem heights_invariant (input : string) (s0 s s' : State) (c : Z) :
  (root_state_of input = Some s0 -> heights_ok s0) /\
  (wf_state s -> is_player (player s) -> heights_ok s ->
   In c (get_valid_moves s) -> cell (board s) (arr_get (top s) c) c = 0 ->
   heights_ok (apply_move s c)) /\
  (wf_state s -> is_player (player s) -> packed s -> legal_play s s' ->
   heights_ok s').
Proof.
  split; [| split].
  - intros H. apply (root_state_of_wf input s0 H).
  - intros Hwf Hpl Hok Hin Hland. apply apply_move_heights_ok; try assumption.
    destruct Hpl as [-> | ->]; lia.
  - intros Hwf Hpl Hp Hplay. apply packed_heights_ok.
    apply (legal_play_invariants s s' Hwf Hpl Hp Hplay).
Qed.

Lemma heights_invariant_witness :
  heights_ok (empty_state 1) /\
  heights_ok (apply_move (empty_state 1) 3) /\
  heights_ok (apply_move (apply_move (empty_state 1) 3) 3).
Proof.
  destruct (heights_invariant input_empty (empty_state 1) (empty_state 1)
              (apply_move (apply_move (empty_state 1) 3) 3) 3)
    as (Hroot & Hmove & Hplay).
  split; [| split].
  - apply Hroot. vm_compute. reflexivity.
  - apply Hmove.
    + apply empty_state_wf.
    + left. reflexivity.
    + apply Hroot. vm_compute. reflexivity.
    + vm_compute. auto 10.
    + reflexivity.
  - apply Hplay.
    + apply empty_state_wf.
    + left. reflexivity.
    + apply packedb_packed. vm_compute. reflexivity.
    + apply legal_play_move; [apply legal_play_move; [apply legal_play_here |] |];
        vm_compute; auto 10.
Defined.

(** C6, counterexample.  [main] accepts [input_gap]; the root state satisfies
    the height invariant and column 0 is valid, but after the move into
    column 0 the height of that column is 2 while it holds one stone. *)
Lemma heights_broken_after_gap :
  exists s, root_state_of input_gap = Some s /\
    heights_ok s /\ In 0 (get_valid_moves s) /\
    ~ heights_ok (apply_move s 0).
Proof.
  eexists. split; [vm_compute; reflexivity |].
  split; [| split].
  - eapply (root_state_of_wf input_gap). vm_compute. reflexivity.
  - vm_compute. auto.
  - intros H. specialize (H 0 ltac:(unfold COLS; lia)). vm_compute in H.
    discriminate H.
Qed.

(** ** Winner detection *)

Section Winner.

Implicit Types (b : list (list Z)) (s : State) (ij : Z * Z).

Lemma find_first {A : Type} (f : A -> bool) (l : list A) (x : A) :
  List.find f l = Some x <->
  exists before after,
    l = before ++ x :: after /\ f x = true /\
    forall y, y ∈ before -> f y = false.
Proof.
  split.
  - induction l as [| z l IH]; intros H; [discriminate |].
    simpl in H. destruct (f z) eqn:Hz.
    + injection H as ->. exists [], l. split; [reflexivity |].
      split; [assumption |]. intros y Hy. inversion Hy.
    + destruct (IH H) as (before & after & -> & Hx & Hbefore).
      exists (z :: before), after. split; [reflexivity |].
      split; [assumption |]. intros y Hy.
      apply elem_of_cons in Hy as [-> | Hy]; auto.
  - intros (before & after & -> & Hx & Hbefore).
    induction before as [| z before IH]; simpl.
    + rewrite Hx. reflexivity.
    + rewrite (Hbefore z) by apply list_elem_of_here.
      apply IH. intros y Hy. apply Hbefore, list_elem_of_further, Hy.
Qed.

Lemma small_step (k : Z) : 0 <= k <= 3 -> k = 0 \/ k = 1 \/ k = 2 \/ k = 3.
Proof. lia. Qed.

(** The test of [check_winner] at a cell of the grid succeeds exactly when
    the cell is not empty and starts a line of four of its own value. *)
Lemma wins_at_iff b i j :
  in_grid (i, j) ->
  wins_at b i j = true <->
  cell b i j <> 0 /\ line_start b (cell b i j) (i, j).
Proof.
  intros [Hi Hj]. simpl in Hi, Hj. unfold wins_at.
  destruct (Z.eqb_spec (cell b i j) 0) as [He | He].
  { split; [discriminate | intros [Hne _]; contradiction]. }
  split.
  - intros H. split; [assumption |].
    repeat (apply orb_prop in H as [H | H]);
      repeat (let H' := fresh in apply andb_prop in H as [H H']);
      repeat match goal with
             | H : (_ <? _) = true |- _ => apply Z.ltb_lt in H
             | H : (_ <=? _) = true |- _ => apply Z.leb_le in H
             | H : (_ =? _) = true |- _ => apply Z.eqb_eq in H
             end.
    + exists Horizontal. intros k Hk.
      destruct (small_step k Hk) as [-> | [-> | [-> | ->]]]; simpl;
        rewrite ?Z.add_0_r; (split; [unfold in_grid; simpl; lia | congruence]).
    + exists Vertical. intros k Hk.
      destruct (small_step k Hk) as [-> | [-> | [-> | ->]]]; simpl;
        rewrite ?Z.add_0_r; (split; [unfold in_grid; simpl; lia | congruence]).
    + exists DiagonalRight. intros k Hk.
      destruct (small_step k Hk) as [-> | [-> | [-> | ->]]]; simpl;
        rewrite ?Z.add_0_r; (split; [unfold in_grid; simpl; lia | congruence]).
    + exists DiagonalLeft. intros k Hk.
      destruct (small_step k Hk) as [-> | [-> | [-> | ->]]]; simpl;
        rewrite ?Z.add_0_r, ?Z.sub_0_r;
        (split; [unfold in_grid; simpl; lia | congruence]).
  - intros [_ [d Hd]].
    destruct (Hd 1 ltac:(lia)) as [_ H1].
    destruct (Hd 2 ltac:(lia)) as [_ H2].
    destruct (Hd 3 ltac:(lia)) as [[Hi3 Hj3] H3].
    destruct d; simpl in H1, H2, H3, Hi3, Hj3; rewrite H1, H2, H3, !Z.eqb_refl.
    + replace (j + 3 <? COLS) with true by (symmetry; apply Z.ltb_lt; lia).
      reflexivity.
    + replace (i + 3 <? ROWS) with true by (symmetry; apply Z.ltb_lt; lia).
      simpl. rewrite ?orb_true_r. reflexivity.
    + replace (i + 3 <? ROWS) with true by (symmetry; apply Z.ltb_lt; lia).
      replace (j + 3 <? COLS) with true by (symmetry; apply Z.ltb_lt; lia).
      simpl. rewrite ?orb_true_r. reflexivity.
    + replace (i + 3 <? ROWS) with true by (symmetry; apply Z.ltb_lt; lia).
      replace (0 <=? j - 3) with true by (symmetry; apply Z.leb_le; lia).
      simpl. rewrite ?orb_true_r. reflexivity.
Qed.

Lemma line_start_cell b p ij :
  line_start b p ij -> in_grid ij /\ cell b (fst ij) (snd ij) = p.
Proof.
  intros [d Hd]. destruct (Hd 0 ltac:(lia)) as [Hg Hc].
  destruct ij as [i j].
  destruct d; simpl in Hg, Hc; unfold in_grid in Hg; simpl in Hg;
    rewrite ?Z.add_0_r, ?Z.sub_0_r in Hg, Hc; (split; [exact Hg | exact Hc]).
Qed.

(** A cell where the test fails starts no line of a non-empty value. *)
Lemma wins_at_false b ij q :
  wins_at b (fst ij) (snd ij) = false -> q <> 0 -> ~ line_start b q ij.
Proof.
  intros Hf Hq Hline. destruct (line_start_cell b q ij Hline) as [Hg Hc].
  destruct ij as [i j]. simpl in *.
  assert (wins_at b i j = true) as Ht; [| congruence].
  apply wins_at_iff; [exact Hg |]. rewrite Hc. auto.
Qed.

Lemma wins_at_line b p ij :
  p <> 0 -> line_start b p ij -> wins_at b (fst ij) (snd ij) = true.
Proof.
  intros Hp Hline. destruct (line_start_cell b p ij Hline) as [Hg Hc].
  destruct ij as [i j]. simpl in *.
  apply wins_at_iff; [exact Hg |]. rewrite Hc. auto.
Qed.

(** With no line on the board the result is decided by the heights. *)
Lemma check_winner_no_line s :
  (forall q, q <> 0 -> ~ has_line (board s) q) ->
  check_winner s = if board_full s then -1 else 0.
Proof.
  intros Hno. unfold check_winner.
  destruct (List.find _ all_cells) as [ij |] eqn:Hfind; [| reflexivity].
  apply find_some in Hfind as [Hin Hw].
  apply list_elem_of_In, in_all_cells in Hin. destruct ij as [i j].
  apply wins_at_iff in Hw as [Hne Hline]; [| exact Hin].
  exfalso. apply (Hno _ Hne). exists (i, j). exact Hline.
Qed.

Lemma board_full_iff s :
  board_full s = true <-> forall j, 0 <= j < COLS -> ROWS <= arr_get (top s) j.
Proof.
  unfold board_full. rewrite forallb_forall. split.
  - intros H j Hj. apply in_cols, list_elem_of_In, H in Hj.
    destruct (Z.ltb_spec (arr_get (top s) j) ROWS); [discriminate | assumption].
  - intros H j Hj. apply list_elem_of_In, in_cols, H in Hj.
    destruct (Z.ltb_spec (arr_get (top s) j) ROWS); [lia | reflexivity].
Qed.

End Winner.

(** C3, as amended.  For a player [p], [check_winner] returns [p] exactly
    when the first cell, in the row-major order of the scan, that starts four
    equal non-empty cells in one of the four forward directions holds [p].
    Hence it returns [p] only if [p] has such a line, and it does return [p]
    when [p] has one and no other stone value has.  With no line at all it
    returns -1 (draw) when every height equals ROWS and, heights never
    exceeding ROWS, 0 (game in progress) otherwise. *)
Theorem check_winner_first_line (s : State) (p : Z) :
  is_player p ->
  (check_winner s = p <->
   exists before ij after,
     all_cells = before ++ ij :: after /\ line_start (board s) p ij /\
     forall ij' q, ij' ∈ before -> q <> 0 -> ~ line_start (board s) q ij') /\
  (check_winner s = p -> has_line (board s) p) /\
  (has_line (board s) p ->
   (forall q, q <> 0 -> q <> p -> ~ has_line (board s) q) ->
   check_winner s = p) /\
  ((forall q, q <> 0 -> ~ has_line (board s) q) ->
   (forall j, 0 <= j < COLS -> arr_get (top s) j = ROWS) ->
   check_winner s = -1) /\
  ((forall q, q <> 0 -> ~ has_line (board s) q) ->
   (forall j, 0 <= j < COLS -> arr_get (top s) j <= ROWS) ->
   ~ (forall j, 0 <= j < COLS -> arr_get (top s) j = ROWS) ->
   check_winner s = 0).
Proof.
  intros Hp.
  assert (p <> 0 /\ p <> -1) as [Hp0 Hp1] by (destruct Hp as [-> | ->]; lia).
  assert (check_winner s = p ->
          exists before ij after,
            all_cells = before ++ ij :: after /\ line_start (board s) p ij /\
            forall ij' q, ij' ∈ before -> q <> 0 ->
                          ~ line_start (board s) q ij') as Hfwd.
  { unfold check_winner. intros H.
    destruct (List.find _ all_cells) as [ij |] eqn:Hfind.
    - pose proof (find_some _ _ Hfind) as [Hin Hw].
      apply list_elem_of_In, in_all_cells in Hin.
      apply find_first in Hfind as (before & after & Hsplit & _ & Hbefore).
      exists before, ij, after. split; [exact Hsplit |]. split.
      + destruct ij as [i j]. simpl fst in *. simpl snd in *.
        apply wins_at_iff in Hw as [_ Hline]; [| exact Hin].
        rewrite H in Hline. exact Hline.
      + intros ij' q Hin' Hq. apply wins_at_false; [apply Hbefore, Hin' | exact Hq].
    - destruct (board_full s); congruence. }
  split; [split; [exact Hfwd |] | split; [| split; [| split]]].
  - intros (before & ij & after & Hsplit & Hline & Hbefore).
    unfold check_winner.
    replace (List.find _ all_cells) with (Some ij).
    + apply (line_start_cell _ _ _ Hline).
    + symmetry. apply find_first. exists before, after.
      split; [exact Hsplit |]. split; [apply (wins_at_line _ p); assumption |].
      intros [i j] Hin. change (wins_at (board s) i j = false).
      destruct (wins_at (board s) i j) eqn:Hw; [| reflexivity].
      apply wins_at_iff in Hw as [Hne Hl].
      * exfalso. apply (Hbefore (i, j) _ Hin Hne Hl).
      * apply (in_all_cells (i, j)). rewrite Hsplit.
        apply elem_of_app. left. exact Hin.
  - intros H. destruct (Hfwd H) as (_ & ij & _ & _ & Hline & _).
    exists ij. exact Hline.
  - intros [ij Hline] Hothers. unfold check_winner.
    destruct (List.find _ all_cells) as [[i j] |] eqn:Hfind.
    + apply find_some in Hfind as [Hin Hw].
      apply list_elem_of_In, in_all_cells in Hin.
      apply wins_at_iff in Hw as [Hne Hl]; [| exact Hin]. simpl.
      destruct (Z.eq_dec (cell (board s) i j) p) as [| Hnp]; [assumption |].
      exfalso. apply (Hothers _ Hne Hnp). exists (i, j). exact Hl.
    + assert (wins_at (board s) (fst ij) (snd ij) = false) as Hw.
      { apply (find_none _ _ Hfind ij).
        apply list_elem_of_In, in_all_cells, (line_start_cell _ _ _ Hline). }
      rewrite (wins_at_line _ p ij Hp0 Hline) in Hw. discriminate Hw.
  - intros Hno Hfull. rewrite check_winner_no_line by exact Hno.
    replace (board_full s) with true; [reflexivity |].
    symmetry. apply board_full_iff. intros j Hj. rewrite (Hfull j Hj). lia.
  - intros Hno Hle Hnot. rewrite check_winner_no_line by exact Hno.
    destruct (board_full s) eqn:Hfull; [| reflexivity].
    exfalso. apply Hnot. intros j Hj.
    pose proof (proj1 (board_full_iff s) Hfull j Hj). specialize (Hle j Hj). lia.
Qed.

Lemma check_winner_first_line_witness :
  exists s, root_state_of input_two_lines = Some s /\ has_line (board s) 1.
Proof.
  eexists. split; [vm_compute; reflexivity |].
  eapply (check_winner_first_line _ 1).
  - left. reflexivity.
  - vm_compute. reflexivity.
Defined.

(** C3, counterexample.  In the root state built from [input_two_lines] the
    cells (1,0)..(1,3) are four stones of player 2 in a row, but the scan
    meets the line of player 1 in row 0 first and the result is 1. *)
Lemma check_winner_two_lines :
  exists s, root_state_of input_two_lines = Some s /\
    has_line (board s) 2 /\ check_winner s <> 2.
Proof.
  eexists. split; [vm_compute; reflexivity |]. split.
  - exists (1, 0), Horizontal. intros k Hk.
    destruct (small_step k Hk) as [-> | [-> | [-> | ->]]];
      (split; [vm_compute; intuition discriminate | reflexivity]).
  - vm_compute. discriminate.
Qed.

(** ** Static evaluation *)

Section Evaluation.

Implicit Types (s : State) (rp : Z).

Lemma count_loop_from s rp (l : list (Z * Z)) (acc : Z * Z) :
  fold_left (count_step s rp) l acc =
    (fst acc + count_if (fun ij => cell (board s) (fst ij) (snd ij) =? rp) l,
     snd acc + count_if (fun ij => cell (board s) (fst ij) (snd ij) =? 3 - rp) l).
Proof.
  revert acc. induction l as [| ij l IH]; intros [a o].
  - unfold count_if. simpl. f_equal; lia.
  - simpl fold_left. rewrite IH, !count_if_cons. unfold count_step.
    destruct (Z.eqb_spec (cell (board s) (fst ij) (snd ij)) rp) as [He | He].
    + replace (cell (board s) (fst ij) (snd ij) =? 3 - rp) with false
        by (symmetry; apply Z.eqb_neq; lia).
      simpl. f_equal; lia.
    + destruct (cell (board s) (fst ij) (snd ij) =? 3 - rp); simpl; f_equal; lia.
Qed.

Lemma count_loop_eq s rp :
  count_loop s rp = (stones (board s) rp, stones (board s) (3 - rp)).
Proof. unfold count_loop. rewrite count_loop_from. reflexivity. Qed.

Lemma stones_bounds (b : list (list Z)) (p : Z) : 0 <= stones b p <= 42.
Proof. apply (count_if_bounds _ all_cells). Qed.

(** Every value of the evaluator lies in [-100000, 100000]. *)
Lemma evaluate_state_range s rp : -100000 <= evaluate_state s rp <= 100000.
Proof.
  unfold evaluate_state.
  destruct (check_winner s =? rp); [lia |].
  destruct (check_winner s =? 3 - rp); [lia |].
  destruct (check_winner s =? -1); [lia |].
  rewrite count_loop_eq. simpl.
  pose proof (stones_bounds (board s) rp).
  pose proof (stones_bounds (board s) (3 - rp)). lia.
Qed.

End Evaluation.

(** C4.  For a root player 1 or 2, [evaluate_state] returns 100000 when
    [check_winner] returns the root player, -100000 when it returns the
    opponent [3 - root_player], 0 when it returns -1 (draw), and otherwise
    the number of the root player's stones minus the number of the
    opponent's. *)
Theorem evaluate_state_cases (s : State) (root_player : Z) :
  is_player root_player ->
  (check_winner s = root_player -> evaluate_state s root_player = 100000) /\
  (check_winner s = 3 - root_player -> evaluate_state s root_player = -100000) /\
  (check_winner s = -1 -> evaluate_state s root_player = 0) /\
  (check_winner s <> root_player -> check_winner s <> 3 - root_player ->
   check_winner s <> -1 ->
   evaluate_state s root_player =
     stones (board s) root_player - stones (board s) (3 - root_player)).
Proof.
  intros Hp. unfold evaluate_state. repeat split.
  - intros ->. rewrite Z.eqb_refl. reflexivity.
  - intros ->. rewrite Z.eqb_refl.
    replace (3 - root_player =? root_player) with false
      by (destruct Hp as [-> | ->]; reflexivity).
    reflexivity.
  - intros ->. destruct Hp as [-> | ->]; reflexivity.
  - intros H1 H2 H3.
    apply Z.eqb_neq in H1, H2, H3. rewrite H1, H2, H3, count_loop_eq.
    reflexivity.
Qed.

Lemma evaluate_state_cases_witness :
  exists s, root_state_of input_three = Some s /\
    evaluate_state s 1 = stones (board s) 1 - stones (board s) (3 - 1) /\
    evaluate_state s 1 = 1.
Proof.
  eexists. split; [vm_compute; reflexivity |]. split; [| reflexivity].
  eapply (evaluate_state_cases _ 1).
  - left. reflexivity.
  - vm_compute. discriminate.
  - vm_compute. discriminate.
  - vm_compute. discriminate.
Defined.

(** ** Termination of the search *)

Section Termination.

Implicit Types (s : State).

Lemma sum_update (f g : Z -> Z) (l : list Z) (x : Z) :
  NoDup l -> x ∈ l -> (forall y, y ∈ l -> y <> x -> g y = f y) ->
  fold_right (fun j acc => g j + acc) 0 l =
    fold_right (fun j acc => f j + acc) 0 l + g x - f x.
Proof.
  induction l as [| z l IH]; intros Hnd Hin Hext.
  - inversion Hin.
  - apply NoDup_cons in Hnd as [Hz Hnd]. simpl.
    apply elem_of_cons in Hin as [-> | Hin].
    + assert (fold_right (fun j acc => g j + acc) 0 l =
              fold_right (fun j acc => f j + acc) 0 l) as ->; [| lia].
      clear IH Hnd. induction l as [| y l IHl]; [reflexivity |]. simpl.
      apply not_elem_of_cons in Hz as [Hy Hz].
      rewrite IHl.
      * rewrite (Hext y); [reflexivity | |].
        -- apply list_elem_of_further, list_elem_of_here.
        -- congruence.
      * exact Hz.
      * intros y' Hy' Hne. apply Hext; [| exact Hne].
        apply elem_of_cons in Hy' as [-> | Hy'].
        -- apply list_elem_of_here.
        -- apply list_elem_of_further, list_elem_of_further, Hy'.
    + rewrite IH; try assumption.
      * rewrite (Hext z); [lia | apply list_elem_of_here |].
        intros ->. contradiction.
      * intros y Hy. apply Hext, list_elem_of_further, Hy.
Qed.

Lemma free_cells_nonneg s : 0 <= free_cells s.
Proof.
  unfold free_cells. induction cols as [| j l IH]; simpl; lia.
Qed.

(** Every valid move uses up one free cell. *)
Lemma apply_move_free_cells s (c : Z) :
  wf_state s -> In c (get_valid_moves s) ->
  free_cells (apply_move s c) = free_cells s - 1.
Proof.
  intros Hwf Hin. apply valid_move_iff in Hin as [Hc Ht]. unfold free_cells.
  rewrite (sum_update (fun j => Z.max 0 (ROWS - arr_get (top s) j)) _ cols c).
  - rewrite apply_move_top_eq by assumption. lia.
  - apply NoDup_seqZ.
  - apply in_cols, Hc.
  - intros j _ Hne. rewrite apply_move_top_ne by assumption. reflexivity.
Qed.

Lemma apply_move_remaining s (c : Z) :
  wf_state s -> In c (get_valid_moves s) ->
  (remaining (apply_move s c) < remaining s)%nat.
Proof.
  intros Hwf Hin. unfold remaining.
  pose proof (apply_move_free_cells s c Hwf Hin).
  pose proof (free_cells_nonneg (apply_move s c)). lia.
Qed.

Lemma enough_child fuel s depth (c : Z) :
  enough (S fuel) s depth -> depth <> 0 -> In c (get_valid_moves s) ->
  enough fuel (apply_move s c) (depth - 1).
Proof.
  intros [[Hwf Hrem] | Hd] Hne Hin.
  - left. split; [apply apply_move_wf, Hwf |].
    pose proof (apply_move_remaining s c Hwf Hin). lia.
  - right. lia.
Qed.

Lemma alphabeta_S fuel s depth alpha beta maximizing root_player :
  alphabeta (S fuel) s depth alpha beta maximizing root_player =
    if (depth =? 0) || negb (check_winner s =? 0)
    then Some (evaluate_state s root_player)
    else if Z.of_nat (length (get_valid_moves s)) =? 0
    then Some (evaluate_state s root_player)
    else if negb (maximizing =? 0)
    then max_loop (fun c a b => alphabeta fuel c (depth - 1) a b 0 root_player)
           s (get_valid_moves s) INT_MIN alpha beta
    else min_loop (fun c a b => alphabeta fuel c (depth - 1) a b 1 root_player)
           s (get_valid_moves s) INT_MAX alpha beta.
Proof. reflexivity. Qed.

Lemma max_loop_total rec s moves value alpha beta :
  (forall mv a b, In mv moves -> exists x, rec (apply_move s mv) a b = Some x) ->
  exists v, max_loop rec s moves value alpha beta = Some v.
Proof.
  revert value alpha. induction moves as [| mv rest IH]; intros value alpha Hrec.
  - exists value. reflexivity.
  - simpl. rewrite copy_state_id.
    destruct (Hrec mv alpha beta (or_introl eq_refl)) as [x ->].
    destruct (_ >=? beta); [eauto |].
    apply IH. intros mv' a b Hin. apply Hrec. right. exact Hin.
Qed.

Lemma min_loop_total rec s moves value alpha beta :
  (forall mv a b, In mv moves -> exists x, rec (apply_move s mv) a b = Some x) ->
  exists v, min_loop rec s moves value alpha beta = Some v.
Proof.
  revert value beta. induction moves as [| mv rest IH]; intros value beta Hrec.
  - exists value. reflexivity.
  - simpl. rewrite copy_state_id.
    destruct (Hrec mv alpha beta (or_introl eq_refl)) as [x ->].
    destruct (alpha >=? _); [eauto |].
    apply IH. intros mv' a b Hin. apply Hrec. right. exact Hin.
Qed.

(** With enough fuel the search returns a value. *)
Lemma alphabeta_total fuel s depth alpha beta maximizing root_player :
  enough fuel s depth ->
  exists v, alphabeta fuel s depth alpha beta maximizing root_player = Some v.
Proof.
  revert s depth alpha beta maximizing.
  induction fuel as [| fuel IH]; intros s depth alpha beta maximizing Hen.
  - destruct Hen as [[_ Hrem] | Hd]; lia.
  - rewrite alphabeta_S.
    destruct (Z.eqb_spec depth 0) as [Hd | Hd]; [simpl; eauto |].
    destruct (negb (check_winner s =? 0)); [simpl; eauto |]. simpl orb. cbv iota.
    destruct (Z.of_nat (length (get_valid_moves s)) =? 0); [eauto |].
    destruct (negb (maximizing =? 0)).
    + apply max_loop_total. intros mv a b Hin. apply IH, enough_child; assumption.
    + apply min_loop_total. intros mv a b Hin. apply IH, enough_child; assumption.
Qed.

End Termination.

(** ** The loops of the search *)

Section Loops.

Implicit Types (s : State) (rec : State -> Z -> Z -> option Z).

(** One iteration of the maximizing loop: the best value and alpha are
    raised, and the loop stops as soon as alpha has reached beta. *)
Lemma max_loop_cons rec s mv rest value alpha beta :
  max_loop rec s (mv :: rest) value alpha beta =
    match rec (apply_move s mv) alpha beta with
    | None => None
    | Some score =>
        if beta <=? Z.max alpha (Z.max value score)
        then Some (Z.max value score)
        else max_loop rec s rest (Z.max value score)
               (Z.max alpha (Z.max value score)) beta
    end.
Proof.
  simpl. rewrite copy_state_id.
  destruct (rec (apply_move s mv) alpha beta) as [score |]; [| reflexivity].
  assert ((if score >? value then score else value) = Z.max value score) as ->.
  { rewrite Z.gtb_ltb. destruct (Z.ltb_spec value score); lia. }
  assert ((if Z.max value score >? alpha then Z.max value score else alpha)
          = Z.max alpha (Z.max value score)) as ->.
  { rewrite Z.gtb_ltb. destruct (Z.ltb_spec alpha (Z.max value score)); lia. }
  rewrite Z.geb_leb. reflexivity.
Qed.

(** One iteration of the minimizing loop. *)
Lemma min_loop_cons rec s mv rest value alpha beta :
  min_loop rec s (mv :: rest) value alpha beta =
    match rec (apply_move s mv) alpha beta with
    | None => None
    | Some score =>
        if Z.min beta (Z.min value score) <=? alpha
        then Some (Z.min value score)
        else min_loop rec s rest (Z.min value score) alpha
               (Z.min beta (Z.min value score))
    end.
Proof.
  simpl. rewrite copy_state_id.
  destruct (rec (apply_move s mv) alpha beta) as [score |]; [| reflexivity].
  assert ((if score <? value then score else value) = Z.min value score) as ->.
  { destruct (Z.ltb_spec score value); lia. }
  assert ((if Z.min value score <? beta then Z.min value score else beta)
          = Z.min beta (Z.min value score)) as ->.
  { destruct (Z.ltb_spec (Z.min value score) beta); lia. }
  rewrite Z.geb_leb. reflexivity.
Qed.

Lemma max_loop_range rec s moves value alpha beta v :
  (forall c a b x, rec c a b = Some x -> -100000 <= x <= 100000) ->
  value <= 100000 -> (-100000 <= value \/ moves <> []) ->
  max_loop rec s moves value alpha beta = Some v -> -100000 <= v <= 100000.
Proof.
  intros Hrec. revert value alpha.
  induction moves as [| mv rest IH]; intros value alpha Hhi Hlo H.
  - injection H as <-. destruct Hlo as [Hlo | Hlo]; [lia | congruence].
  - rewrite max_loop_cons in H.
    destruct (rec (apply_move s mv) alpha beta) as [score |] eqn:Hs;
      [| discriminate].
    apply Hrec in Hs. destruct (beta <=? _).
    + injection H as <-. lia.
    + apply IH in H; [exact H | lia | left; lia].
Qed.

Lemma min_loop_range rec s moves value alpha beta v :
  (forall c a b x, rec c a b = Some x -> -100000 <= x <= 100000) ->
  -100000 <= value -> (value <= 100000 \/ moves <> []) ->
  min_loop rec s moves value alpha beta = Some v -> -100000 <= v <= 100000.
Proof.
  intros Hrec. revert value beta.
  induction moves as [| mv rest IH]; intros value beta Hlo Hhi H.
  - injection H as <-. destruct Hhi as [Hhi | Hhi]; [lia | congruence].
  - rewrite min_loop_cons in H.
    destruct (rec (apply_move s mv) alpha beta) as [score |] eqn:Hs;
      [| discriminate].
    apply Hrec in Hs. destruct (_ <=? alpha).
    + injection H as <-. lia.
    + apply IH in H; [exact H | lia | left; lia].
Qed.

Lemma max_loop_mono rec rec' s moves value alpha beta v :
  (forall c a b x, rec c a b = Some x -> rec' c a b = Some x) ->
  max_loop rec s moves value alpha beta = Some v ->
  max_loop rec' s moves value alpha beta = Some v.
Proof.
  intros Hrec. revert value alpha.
  induction moves as [| mv rest IH]; intros value alpha H; [exact H |].
  rewrite max_loop_cons in *.
  destruct (rec (apply_move s mv) alpha beta) as [score |] eqn:Hs;
    [| discriminate].
  rewrite (Hrec _ _ _ _ Hs). destruct (beta <=? _); [exact H | apply IH, H].
Qed.

Lemma min_loop_mono rec rec' s moves value alpha beta v :
  (forall c a b x, rec c a b = Some x -> rec' c a b = Some x) ->
  min_loop rec s moves value alpha beta = Some v ->
  min_loop rec' s moves value alpha beta = Some v.
Proof.
  intros Hrec. revert value beta.
  induction moves as [| mv rest IH]; intros value beta H; [exact H |].
  rewrite min_loop_cons in *.
  destruct (rec (apply_move s mv) alpha beta) as [score |] eqn:Hs;
    [| discriminate].
  rewrite (Hrec _ _ _ _ Hs). destruct (_ <=? alpha); [exact H | apply IH, H].
Qed.

End Loops.

(** ** Range and fuel independence of the search *)

Section SearchBasics.

Implicit Types (s : State).

Lemma valid_moves_nonempty s :
  (Z.of_nat (length (get_valid_moves s)) =? 0) = false ->
  get_valid_moves s <> [].
Proof. intros H Hnil. rewrite Hnil in H. discriminate H. Qed.

(** The search only returns values of the evaluator's range, so the
    sentinels INT_MIN and INT_MAX never come out of it. *)
Lemma alphabeta_range fuel s depth alpha beta maximizing root_player v :
  alphabeta fuel s depth alpha beta maximizing root_player = Some v ->
  -100000 <= v <= 100000.
Proof.
  revert s depth alpha beta maximizing v.
  induction fuel as [| fuel IH]; intros s depth alpha beta maximizing v H;
    [discriminate |].
  rewrite alphabeta_S in H.
  destruct ((depth =? 0) || negb (check_winner s =? 0)).
  { injection H as <-. apply evaluate_state_range. }
  destruct (Z.of_nat (length (get_valid_moves s)) =? 0) eqn:Hlen.
  { injection H as <-. apply evaluate_state_range. }
  apply valid_moves_nonempty in Hlen.
  destruct (negb (maximizing =? 0)).
  - eapply max_loop_range in H; [exact H | | unfold INT_MIN; lia | right; exact Hlen].
    intros c a b x Hx. apply IH in Hx. exact Hx.
  - eapply min_loop_range in H; [exact H | | unfold INT_MAX; lia | right; exact Hlen].
    intros c a b x Hx. apply IH in Hx. exact Hx.
Qed.

(** More fuel does not change a result. *)
Lemma alphabeta_fuel_mono fuel fuel' s depth alpha beta maximizing root_player v :
  (fuel <= fuel')%nat ->
  alphabeta fuel s depth alpha beta maximizing root_player = Some v ->
  alphabeta fuel' s depth alpha beta maximizing root_player = Some v.
Proof.
  revert fuel' s depth alpha beta maximizing v.
  induction fuel as [| fuel IH];
    intros fuel' s depth alpha beta maximizing v Hle H; [discriminate |].
  destruct fuel' as [| fuel']; [lia |].
  rewrite alphabeta_S in *.
  destruct ((depth =? 0) || negb (check_winner s =? 0)); [exact H |].
  destruct (Z.of_nat (length (get_valid_moves s)) =? 0); [exact H |].
  destruct (negb (maximizing =? 0)).
  - eapply max_loop_mono; [| exact H]. intros c a b x. apply IH. lia.
  - eapply min_loop_mono; [| exact H]. intros c a b x. apply IH. lia.
Qed.

Lemma alphabeta_fuel_indep fuel fuel' s depth alpha beta maximizing root_player :
  enough fuel s depth -> enough fuel' s depth ->
  alphabeta fuel s depth alpha beta maximizing root_player =
  alphabeta fuel' s depth alpha beta maximizing root_player.
Proof.
  intros H H'.
  destruct (alphabeta_total fuel s depth alpha beta maximizing root_player H)
    as [v Hv].
  destruct (alphabeta_total fuel' s depth alpha beta maximizing root_player H')
    as [v' Hv'].
  rewrite Hv, Hv'.
  apply (alphabeta_fuel_mono _ (Nat.max fuel fuel')) in Hv; [| lia].
  apply (alphabeta_fuel_mono _ (Nat.max fuel fuel')) in Hv'; [| lia].
  congruence.
Qed.

End SearchBasics.

(** ** Alpha-beta against minimax *)

Section Refinement.

Implicit Types (s : State) (vals : Z -> Z).

Lemma fold_max_init vals (l : list Z) (a b : Z) :
  fold_left (fun acc m => Z.max acc (vals m)) l (Z.max a b) =
  Z.max (fold_left (fun acc m => Z.max acc (vals m)) l a) b.
Proof.
  revert a. induction l as [| m l IH]; intros a; [reflexivity |]. simpl.
  rewrite <- IH. f_equal. lia.
Qed.

Lemma fold_min_init vals (l : list Z) (a b : Z) :
  fold_left (fun acc m => Z.min acc (vals m)) l (Z.min a b) =
  Z.min (fold_left (fun acc m => Z.min acc (vals m)) l a) b.
Proof.
  revert a. induction l as [| m l IH]; intros a; [reflexivity |]. simpl.
  rewrite <- IH. f_equal. lia.
Qed.

Lemma fold_max_ge vals (l : list Z) (a : Z) :
  a <= fold_left (fun acc m => Z.max acc (vals m)) l a.
Proof.
  revert a. induction l as [| m l IH]; intros a; simpl; [lia |].
  specialize (IH (Z.max a (vals m))). lia.
Qed.

Lemma fold_min_le vals (l : list Z) (a : Z) :
  fold_left (fun acc m => Z.min acc (vals m)) l a <= a.
Proof.
  revert a. induction l as [| m l IH]; intros a; simpl; [lia |].
  specialize (IH (Z.min a (vals m))). lia.
Qed.

Lemma fold_max_range vals (l : list Z) (a lo hi : Z) :
  lo <= a <= hi -> (forall m, lo <= vals m <= hi) ->
  lo <= fold_left (fun acc m => Z.max acc (vals m)) l a <= hi.
Proof.
  intros Ha Hv. revert a Ha. induction l as [| m l IH]; intros a Ha; simpl;
    [lia |].
  apply IH. specialize (Hv m). lia.
Qed.

Lemma fold_min_range vals (l : list Z) (a lo hi : Z) :
  lo <= a <= hi -> (forall m, lo <= vals m <= hi) ->
  lo <= fold_left (fun acc m => Z.min acc (vals m)) l a <= hi.
Proof.
  intros Ha Hv. revert a Ha. induction l as [| m l IH]; intros a Ha; simpl;
    [lia |].
  apply IH. specialize (Hv m). lia.
Qed.

Lemma minimax_O s maximizing root_player :
  minimax 0 s maximizing root_player = evaluate_state s root_player.
Proof. reflexivity. Qed.

Lemma minimax_S n s maximizing root_player :
  minimax (S n) s maximizing root_player =
    if negb (check_winner s =? 0) then evaluate_state s root_player
    else match get_valid_moves s with
         | [] => evaluate_state s root_player
         | mv :: rest =>
             fold_left
               (fun acc m =>
                  if maximizing
                  then Z.max acc (minimax n (apply_move s m) (negb maximizing)
                                    root_player)
                  else Z.min acc (minimax n (apply_move s m) (negb maximizing)
                                    root_player))
               rest
               (minimax n (apply_move s mv) (negb maximizing) root_player)
         end.
Proof. reflexivity. Qed.

Lemma minimax_range n s maximizing root_player :
  -100000 <= minimax n s maximizing root_player <= 100000.
Proof.
  revert s maximizing. induction n as [| n IH]; intros s maximizing.
  - apply evaluate_state_range.
  - rewrite minimax_S.
    destruct (negb (check_winner s =? 0)); [apply evaluate_state_range |].
    destruct (get_valid_moves s) as [| mv rest]; [apply evaluate_state_range |].
    destruct maximizing.
    + apply (fold_max_range
               (fun m => minimax n (apply_move s m) (negb true) root_player));
        [apply IH | intros m; apply IH].
    + apply (fold_min_range
               (fun m => minimax n (apply_move s m) (negb false) root_player));
        [apply IH | intros m; apply IH].
Qed.

Lemma fail_soft_exact (alpha beta m : Z) : fail_soft alpha beta m m.
Proof. unfold fail_soft. lia. Qed.

(** The maximizing loop, entered with [value <= alpha < beta], is fail-soft
    for the greatest of [value] and the exact values of the moves. *)
Lemma max_loop_fail_soft rec s vals moves value alpha beta v :
  (forall mv a b x, In mv moves -> INT_MIN <= a -> a < b -> b <= INT_MAX ->
     rec (apply_move s mv) a b = Some x -> fail_soft a b (vals mv) x) ->
  value <= alpha -> INT_MIN <= alpha -> alpha < beta -> beta <= INT_MAX ->
  max_loop rec s moves value alpha beta = Some v ->
  fail_soft alpha beta (fold_left (fun acc m => Z.max acc (vals m)) moves value) v.
Proof.
  revert value alpha.
  induction moves as [| mv rest IH]; intros value alpha Hrec Hva Hlo Hab Hhi H.
  - injection H as <-. simpl. unfold fail_soft. lia.
  - rewrite max_loop_cons in H.
    destruct (rec (apply_move s mv) alpha beta) as [score |] eqn:Hs;
      [| discriminate].
    apply Hrec in Hs; [| left; reflexivity | assumption..].
    simpl fold_left. rewrite fold_max_init.
    pose proof (fold_max_ge vals rest value) as Hge.
    destruct (Z.leb_spec beta (Z.max alpha (Z.max value score))) as [Hcut | Hcut].
    + injection H as <-. unfold fail_soft in *. lia.
    + apply IH in H; [| | lia..].
      * rewrite fold_max_init in H. unfold fail_soft in *. lia.
      * intros mv' a b x Hin. apply Hrec. right. exact Hin.
Qed.

(** The minimizing loop, entered with [alpha < beta <= value]. *)
Lemma min_loop_fail_soft rec s vals moves value alpha beta v :
  (forall mv a b x, In mv moves -> INT_MIN <= a -> a < b -> b <= INT_MAX ->
     rec (apply_move s mv) a b = Some x -> fail_soft a b (vals mv) x) ->
  beta <= value -> INT_MIN <= alpha -> alpha < beta -> beta <= INT_MAX ->
  min_loop rec s moves value alpha beta = Some v ->
  fail_soft alpha beta (fold_left (fun acc m => Z.min acc (vals m)) moves value) v.
Proof.
  revert value beta.
  induction moves as [| mv rest IH]; intros value beta Hrec Hva Hlo Hab Hhi H.
  - injection H as <-. simpl. unfold fail_soft. lia.
  - rewrite min_loop_cons in H.
    destruct (rec (apply_move s mv) alpha beta) as [score |] eqn:Hs;
      [| discriminate].
    apply Hrec in Hs; [| left; reflexivity | assumption..].
    simpl fold_left. rewrite fold_min_init.
    pose proof (fold_min_le vals rest value) as Hge.
    destruct (Z.leb_spec (Z.min beta (Z.min value score)) alpha) as [Hcut | Hcut].
    + injection H as <-. unfold fail_soft in *. lia.
    + apply IH in H; [| | lia..].
      * rewrite fold_min_init in H. unfold fail_soft in *. lia.
      * intros mv' a b x Hin. apply Hrec. right. exact Hin.
Qed.

Lemma agree_child depth n s (c : Z) :
  agree depth (S n) s -> depth <> 0 -> In c (get_valid_moves s) ->
  agree (depth - 1) n (apply_move s c).
Proof.
  intros [[Hd Hn] | (Hd & Hwf & Hrem)] Hne Hin.
  - left. lia.
  - right. split; [lia |]. split; [apply apply_move_wf, Hwf |].
    pose proof (apply_move_remaining s c Hwf Hin). lia.
Qed.


(** Whatever the window inside the range of [int], the value returned by
    [alphabeta] is fail-soft for the exact minimax value. *)
Lemma alphabeta_fail_soft_agree fuel s depth n alpha beta maximizing root_player v :
  agree depth n s ->
  INT_MIN <= alpha -> alpha < beta -> beta <= INT_MAX ->
  alphabeta fuel s depth alpha beta maximizing root_player = Some v ->
  fail_soft alpha beta (minimax n s (negb (maximizing =? 0)) root_player) v.
Proof.
  revert s depth n alpha beta maximizing v.
  induction fuel as [| fuel IH];
    intros s depth n alpha beta maximizing v Hag Hlo Hab Hhi H; [discriminate |].
  rewrite alphabeta_S in H.
  destruct (Z.eqb_spec depth 0) as [Hd | Hd].
  { simpl in H. injection H as <-.
    destruct Hag as [[_ ->] | [Hneg _]]; [| lia]. subst depth.
    apply fail_soft_exact. }
  destruct n as [| n].
  { destruct Hag as [[? ?] | (_ & _ & ?)]; lia. }
  rewrite minimax_S.
  destruct (negb (check_winner s =? 0)).
  { simpl in H. injection H as <-. apply fail_soft_exact. }
  simpl orb in H. cbv iota in H.
  destruct (get_valid_moves s) as [| mv rest] eqn:Hmoves.
  { simpl in H. injection H as <-. apply fail_soft_exact. }
  replace (Z.of_nat (length (mv :: rest)) =? 0) with false in H
    by (symmetry; apply Z.eqb_neq; simpl length; lia).
  destruct (negb (maximizing =? 0)); cbn [negb].
  - apply (max_loop_fail_soft _ s
             (fun m => minimax n (apply_move s m) false root_player))
      in H; try assumption || (unfold INT_MIN; lia).
    + simpl fold_left in H.
      pose proof (minimax_range n (apply_move s mv) false root_player).
      replace (Z.max INT_MIN (minimax n (apply_move s mv) false root_player))
        with (minimax n (apply_move s mv) false root_player) in H
        by (unfold INT_MIN; lia).
      exact H.
    + intros mv' a b x Hin Ha Hab' Hb Hx.
      apply (IH _ _ n) in Hx; try assumption.
      apply agree_child; [exact Hag | exact Hd |]. rewrite Hmoves. exact Hin.
  - apply (min_loop_fail_soft _ s
             (fun m => minimax n (apply_move s m) true root_player))
      in H; try assumption || (unfold INT_MAX; lia).
    + simpl fold_left in H.
      pose proof (minimax_range n (apply_move s mv) true root_player).
      replace (Z.min INT_MAX (minimax n (apply_move s mv) true root_player))
        with (minimax n (apply_move s mv) true root_player) in H
        by (unfold INT_MAX; lia).
      exact H.
    + intros mv' a b x Hin Ha Hab' Hb Hx.
      apply (IH _ _ n) in Hx; try assumption.
      apply agree_child; [exact Hag | exact Hd |]. rewrite Hmoves. exact Hin.
Qed.

End Refinement.

(** C2.  With the full window (INT_MIN, INT_MAX) and a depth [d >= 0] the
    pruned search returns exactly the value of the unpruned minimax to [d]
    plies, for every state, root player and kind of node; at depth 0, and at
    a state where [check_winner] is not 0, that value is
    [evaluate_state s root_player]. *)
Theorem alphabeta_full_window_minimax (fuel : nat) (s : State)
    (d maximizing root_player : Z) :
  0 <= d < Z.of_nat fuel ->
  alphabeta fuel s d INT_MIN INT_MAX maximizing root_player =
    Some (minimax (Z.to_nat d) s (negb (maximizing =? 0)) root_player) /\
  (d = 0 ->
   alphabeta fuel s d INT_MIN INT_MAX maximizing root_player =
     Some (evaluate_state s root_player)) /\
  (check_winner s <> 0 ->
   alphabeta fuel s d INT_MIN INT_MAX maximizing root_player =
     Some (evaluate_state s root_player)).
Proof.
  intros Hd.
  assert (alphabeta fuel s d INT_MIN INT_MAX maximizing root_player =
            Some (minimax (Z.to_nat d) s (negb (maximizing =? 0)) root_player))
    as Heq.
  { destruct (alphabeta_total fuel s d INT_MIN INT_MAX maximizing root_player)
      as [v Hv]; [right; exact Hd |].
    rewrite Hv. f_equal.
    apply (alphabeta_fail_soft_agree _ _ _ (Z.to_nat d)) in Hv;
      [| left; lia | unfold INT_MIN, INT_MAX; lia..].
    pose proof (minimax_range (Z.to_nat d) s (negb (maximizing =? 0)) root_player).
    destruct Hv as (_ & Hin & _). apply Hin. unfold INT_MIN, INT_MAX. lia. }
  split; [exact Heq |]. split.
  - intros ->. rewrite Heq. reflexivity.
  - intros Hw. rewrite Heq. f_equal.
    destruct (Z.to_nat d) as [| n]; [reflexivity |]. rewrite minimax_S.
    apply Z.eqb_neq in Hw. rewrite Hw. reflexivity.
Qed.

Lemma alphabeta_full_window_minimax_witness :
  alphabeta 4 (empty_state 1) 3 INT_MIN INT_MAX 1 1 =
    Some (minimax 3 (empty_state 1) true 1).
Proof.
  apply (alphabeta_full_window_minimax 4 (empty_state 1) 3 1 1). lia.
Defined.




(** ** The top-level selector *)

Section Selector.

Implicit Types (root : State).

Lemma StronglySorted_filter {A : Type} (R : A -> A -> Prop) (f : A -> bool)
    (l : list A) :
  StronglySorted R l -> StronglySorted R (List.filter f l).
Proof.
  induction 1 as [| x l Hs IH Hx]; simpl; [constructor |].
  destruct (f x); [| exact IH]. constructor; [exact IH |].
  rewrite List.Forall_forall in *. intros y Hy.
  apply filter_In in Hy as [Hy _]. apply Hx, Hy.
Qed.

Lemma valid_moves_sorted root : StronglySorted Z.lt (get_valid_moves root).
Proof.
  apply StronglySorted_filter. unfold cols.
  repeat (constructor; [| repeat constructor; reflexivity]). constructor.
Qed.

Lemma enough_root_child fuel root depth (c : Z) :
  enough_root fuel root depth -> In c (get_valid_moves root) ->
  enough fuel (apply_move root c) (depth - 1).
Proof.
  intros [[Hwf Hrem] | Hd] Hin.
  - left. split; [apply apply_move_wf, Hwf |].
    pose proof (apply_move_remaining root c Hwf Hin). lia.
  - right. lia.
Qed.

Lemma search_loop_cons fuel root depth root_player mv rest best_move best_value :
  search_loop fuel root depth root_player (mv :: rest) best_move best_value =
    match root_value fuel root depth root_player mv with
    | None => None
    | Some value =>
        if best_value <? value
        then search_loop fuel root depth root_player rest mv value
        else search_loop fuel root depth root_player rest best_move best_value
    end.
Proof.
  simpl. rewrite copy_state_id. unfold root_value.
  destruct (alphabeta fuel (apply_move root mv) (depth - 1) INT_MIN INT_MAX 0
              root_player) as [value |]; [| reflexivity].
  rewrite Z.gtb_ltb. reflexivity.
Qed.

(** The loop returns [best_move] when no move beats [best_value], and
    otherwise the first move whose value is the greatest. *)
Lemma search_loop_first_max fuel root depth root_player moves best_move best_value :
  (forall mv, In mv moves ->
     exists x, root_value fuel root depth root_player mv = Some x) ->
  exists c,
    search_loop fuel root depth root_player moves best_move best_value = Some c /\
    ((c = best_move /\
      forall mv x, In mv moves ->
        root_value fuel root depth root_player mv = Some x -> x <= best_value) \/
     (exists before after v,
        moves = before ++ c :: after /\
        root_value fuel root depth root_player c = Some v /\ best_value < v /\
        (forall mv x, In mv before ->
           root_value fuel root depth root_player mv = Some x -> x < v) /\
        (forall mv x, In mv after ->
           root_value fuel root depth root_player mv = Some x -> x <= v))).
Proof.
  revert best_move best_value.
  induction moves as [| mv rest IH]; intros best_move best_value Hdef.
  - exists best_move. split; [reflexivity |]. left. split; [reflexivity |].
    intros mv x [].
  - rewrite search_loop_cons.
    destruct (Hdef mv (or_introl eq_refl)) as [x Hx]. rewrite Hx.
    assert (forall mv', In mv' rest ->
              exists x', root_value fuel root depth root_player mv' = Some x')
      as Hrest by (intros mv' Hin; apply Hdef; right; exact Hin).
    destruct (Z.ltb_spec best_value x) as [Hlt | Hge].
    + destruct (IH mv x Hrest) as (c & Hc & Hcase). exists c.
      split; [exact Hc |]. right.
      destruct Hcase as [[-> Hall] | (before & after & v & -> & Hv & Hxv & Hb & Ha)].
      * exists [], rest, x. repeat split; try assumption.
        intros mv' x' [].
      * exists (mv :: before), after, v. repeat split; try assumption; [lia |].
        intros mv' x' [<- | Hin] Hx'; [| eapply Hb; eassumption].
        rewrite Hx in Hx'. injection Hx' as <-. exact Hxv.
    + destruct (IH best_move best_value Hrest) as (c & Hc & Hcase). exists c.
      split; [exact Hc |].
      destruct Hcase as [[-> Hall] | (before & after & v & -> & Hv & Hxv & Hb & Ha)].
      * left. split; [reflexivity |].
        intros mv' x' [<- | Hin] Hx'; [| eapply Hall; eassumption].
        rewrite Hx in Hx'. injection Hx' as <-. exact Hge.
      * right. exists (mv :: before), after, v. repeat split; try assumption.
        intros mv' x' [<- | Hin] Hx'; [| eapply Hb; eassumption].
        rewrite Hx in Hx'. injection Hx' as <-. lia.
Qed.

Lemma sorted_split_lt (before after : list Z) (c c' : Z) :
  StronglySorted Z.lt (before ++ c :: after) ->
  In c' (before ++ c :: after) -> c' < c -> In c' before.
Proof.
  induction before as [| z before IH]; simpl; intros Hs Hin Hlt.
  - apply StronglySorted_inv in Hs as [_ Hall].
    destruct Hin as [-> | Hin]; [lia |].
    rewrite List.Forall_forall in Hall. apply Hall in Hin. lia.
  - apply StronglySorted_inv in Hs as [Hs _].
    destruct Hin as [-> | Hin]; [left; reflexivity | right; auto].
Qed.

(** The selector proper: -1 without a valid move, the first best move
    otherwise. *)
Lemma alphabeta_search_argmax fuel root depth root_player :
  enough_root fuel root depth ->
  (get_valid_moves root = [] ->
   alphabeta_search fuel root depth root_player = Some (-1)) /\
  (get_valid_moves root <> [] ->
   exists c v,
     alphabeta_search fuel root depth root_player = Some c /\
     In c (get_valid_moves root) /\
     root_value fuel root depth root_player c = Some v /\
     forall c', In c' (get_valid_moves root) ->
       exists v', root_value fuel root depth root_player c' = Some v' /\
                  v' <= v /\ (c' < c -> v' < v)).
Proof.
  intros Hen. unfold alphabeta_search. split.
  - intros ->. reflexivity.
  - intros Hne.
    assert (forall mv, In mv (get_valid_moves root) ->
              exists x, root_value fuel root depth root_player mv = Some x)
      as Hdef.
    { intros mv Hin. apply alphabeta_total, enough_root_child; assumption. }
    destruct (search_loop_first_max fuel root depth root_player
                (get_valid_moves root) (-1) INT_MIN Hdef)
      as (c & Hc & [[_ Hall] | (before & after & v & Hsplit & Hv & _ & Hb & Ha)]).
    + exfalso. destruct (get_valid_moves root) as [| mv rest]; [congruence |].
      destruct (Hdef mv (or_introl eq_refl)) as [x Hx].
      pose proof (Hall mv x (or_introl eq_refl) Hx).
      apply alphabeta_range in Hx. unfold INT_MIN in *. lia.
    + exists c, v. split; [exact Hc |].
      split; [rewrite Hsplit; apply in_elt |]. split; [exact Hv |].
      intros c' Hin. destruct (Hdef c' Hin) as [v' Hv']. exists v'.
      split; [exact Hv' |].
      pose proof (valid_moves_sorted root) as Hsorted.
      rewrite Hsplit in Hin, Hsorted. split.
      * apply in_app_or in Hin as [Hin | [<- | Hin]].
        -- specialize (Hb c' v' Hin Hv'). lia.
        -- rewrite Hv in Hv'. injection Hv' as <-. lia.
        -- apply (Ha c' v' Hin Hv').
      * intros Hlt. apply (Hb c' v'); [| exact Hv'].
        apply (sorted_split_lt before after c c'); assumption.
Qed.

Lemma search_loop_ext fuel fuel' root depth root_player moves best_move best_value :
  (forall mv, In mv moves ->
     root_value fuel root depth root_player mv =
     root_value fuel' root depth root_player mv) ->
  search_loop fuel root depth root_player moves best_move best_value =
  search_loop fuel' root depth root_player moves best_move best_value.
Proof.
  revert best_move best_value.
  induction moves as [| mv rest IH]; intros best_move best_value Hext;
    [reflexivity |].
  rewrite !search_loop_cons, (Hext mv) by (left; reflexivity).
  destruct (root_value fuel' root depth root_player mv) as [value |];
    [| reflexivity].
  destruct (best_value <? value); apply IH; intros mv' Hin; apply Hext; right;
    exact Hin.
Qed.

(** The fuel, once sufficient, does not influence the selected move. *)
Lemma alphabeta_search_fuel_indep fuel fuel' root depth root_player :
  enough_root fuel root depth -> enough_root fuel' root depth ->
  alphabeta_search fuel root depth root_player =
  alphabeta_search fuel' root depth root_player.
Proof.
  intros H H'. unfold alphabeta_search. apply search_loop_ext.
  intros mv Hin. unfold root_value.
  apply alphabeta_fuel_indep; apply enough_root_child; assumption.
Qed.

Lemma enough_root_max_depth fuel root :
  (Z.to_nat MAX_DEPTH <= fuel)%nat -> enough_root fuel root MAX_DEPTH.
Proof. intros H. right. unfold MAX_DEPTH in *. lia. Qed.

End Selector.

(** C1.  The valid moves are the columns with [top[c] < ROWS], in ascending
    order; each is valued by [alphabeta] on the child at [depth - 1], as a
    minimizing node with the window (INT_MIN, INT_MAX).  With no valid move
    the selector returns -1; otherwise it returns a valid column whose value
    is the greatest, and every valid column to its left has a strictly
    smaller value. *)
Theorem alphabeta_search_first_best (fuel : nat) (root : State)
    (depth root_player : Z) :
  enough_root fuel root depth ->
  StronglySorted Z.lt (get_valid_moves root) /\
  (forall c, In c (get_valid_moves root) <->
             0 <= c < COLS /\ arr_get (top root) c < ROWS) /\
  (forall c, root_value fuel root depth root_player c =
             alphabeta fuel (apply_move root c) (depth - 1) INT_MIN INT_MAX 0
               root_player) /\
  (get_valid_moves root = [] ->
   alphabeta_search fuel root depth root_player = Some (-1)) /\
  (get_valid_moves root <> [] ->
   exists c v,
     alphabeta_search fuel root depth root_player = Some c /\
     In c (get_valid_moves root) /\
     root_value fuel root depth root_player c = Some v /\
     forall c', In c' (get_valid_moves root) ->
       exists v', root_value fuel root depth root_player c' = Some v' /\
                  v' <= v /\ (c' < c -> v' < v)).
Proof.
  intros Hen.
  split; [apply valid_moves_sorted |]. split; [apply valid_move_iff |].
  split; [reflexivity |]. apply alphabeta_search_argmax, Hen.
Qed.

Lemma alphabeta_search_first_best_witness :
  exists c v,
    alphabeta_search 6 (empty_state 1) 6 1 = Some c /\
    In c (get_valid_moves (empty_state 1)) /\
    root_value 6 (empty_state 1) 6 1 c = Some v /\
    forall c', In c' (get_valid_moves (empty_state 1)) ->
      exists v', root_value 6 (empty_state 1) 6 1 c' = Some v' /\
                 v' <= v /\ (c' < c -> v' < v).
Proof.
  destruct (alphabeta_search_first_best 6 (empty_state 1) 6 1)
    as (_ & _ & _ & _ & H).
  - right. lia.
  - apply H. vm_compute. intros H'; discriminate H'.
Defined.

(** The scenario of the specification: with three stones in the bottom row
    the selector completes the line in column 3. *)
Example alphabeta_search_completes_line :
  exists s, root_state_of input_three = Some s /\
    alphabeta_search 6 s 6 1 = Some 3.
Proof.
  eexists. split; [vm_compute; reflexivity |]. vm_compute. reflexivity.
Qed.

(** ** The program *)

Section Program.

Implicit Types (input : string) (s : State).

Lemma stack_name_letter (c : Z) :
  0 <= c < COLS -> Z.of_nat (nat_of_ascii (stack_name c)) = 65 + c.
Proof.
  intros Hc.
  destruct (small_column c Hc) as [-> | [-> | [-> | [-> | [-> | [-> | ->]]]]]];
    reflexivity.
Qed.

(** Past the input checks [main] prints the selected move, or fails when
    there is none. *)
Lemma main_accepts fuel now input s :
  root_state_of input = Some s ->
  main fuel now input =
    match alphabeta_search fuel s MAX_DEPTH (player s) with
    | None => None
    | Some best_move =>
        if best_move <? 0 then
          Some (failure now ("Error: No valid move found." ++ nl))
        else
          Some {| exit_status := EXIT_SUCCESS;
                  out := String (stack_name best_move) EmptyString;
                  err := EmptyString;
                  rand_seed := now |}
    end.
Proof.
  unfold root_state_of, main.
  destruct (scanf_d input) as [[p inp] |]; [| discriminate].
  destruct (negb (p =? 1) && negb (p =? 2)); [discriminate |].
  destruct (read_board all_cells inp blank_board) as [[b rest] | ij];
    [| discriminate].
  intros [= <-]. reflexivity.
Qed.

(** An input that fails a check gives a failure whose message depends on
    the input alone. *)
Lemma main_rejects input :
  root_state_of input = None ->
  exists msg, msg <> EmptyString /\
    forall fuel now, main fuel now input = Some (failure now msg).
Proof.
  unfold root_state_of, main.
  destruct (scanf_d input) as [[p inp] |].
  - destruct (negb (p =? 1) && negb (p =? 2)).
    + intros _. eexists. split; [| intros fuel now; reflexivity]. discriminate.
    + destruct (read_board all_cells inp blank_board) as [[b rest] | ij];
        [discriminate |].
      intros _. eexists. split; [| intros fuel now; reflexivity]. discriminate.
  - intros _. eexists. split; [| intros fuel now; reflexivity]. discriminate.
Qed.

Lemma root_state_of_None input :
  root_state_of input = None <->
  scanf_d input = None \/
  exists p inp, scanf_d input = Some (p, inp) /\
    (~ is_player p \/
     exists ij, read_board all_cells inp blank_board = inr ij).
Proof.
  unfold root_state_of.
  destruct (scanf_d input) as [[p inp] |]; [| tauto].
  destruct (Z.eqb_spec p 1) as [-> | H1]; cbn [negb andb].
  - destruct (read_board all_cells inp blank_board) as [[b rest] | ij] eqn:Hb.
    + split; [discriminate |].
      intros [? | (p' & inp' & [= <- <-] & [Hp | [ij Hij]])];
        [discriminate | | congruence].
      exfalso. apply Hp. left. reflexivity.
    + split; [| reflexivity]. intros _. right. exists 1, inp. eauto.
  - destruct (Z.eqb_spec p 2) as [-> | H2]; cbn [negb andb].
    + destruct (read_board all_cells inp blank_board) as [[b rest] | ij] eqn:Hb.
      * split; [discriminate |].
        intros [? | (p' & inp' & [= <- <-] & [Hp | [ij Hij]])];
          [discriminate | | congruence].
        exfalso. apply Hp. right. reflexivity.
      * split; [| reflexivity]. intros _. right. exists 2, inp. eauto.
    + split; [| reflexivity]. intros _. right. exists p, inp.
      split; [reflexivity |]. left. unfold is_player. lia.
Qed.

(** The run of [main] on an accepted input, by cases on the valid moves. *)
Lemma main_on_root fuel now input s :
  (Z.to_nat MAX_DEPTH <= fuel)%nat -> root_state_of input = Some s ->
  (get_valid_moves s = [] /\
   main fuel now input =
     Some (failure now ("Error: No valid move found." ++ nl))) \/
  (exists c,
     In c (get_valid_moves s) /\
     alphabeta_search fuel s MAX_DEPTH (player s) = Some c /\
     main fuel now input =
       Some {| exit_status := EXIT_SUCCESS;
               out := String (stack_name c) EmptyString;
               err := EmptyString;
               rand_seed := now |}).
Proof.
  intros Hfuel Hroot. rewrite (main_accepts fuel now input s Hroot).
  destruct (alphabeta_search_argmax fuel s MAX_DEPTH (player s)
              (enough_root_max_depth fuel s Hfuel)) as [Hnone Hsome].
  destruct (get_valid_moves s) as [| mv rest] eqn:Hmoves.
  - left. rewrite Hnone by reflexivity. split; reflexivity.
  - right. destruct Hsome as (c & v & Hc & Hin & _); [discriminate |].
    exists c. split; [exact Hin |]. split; [exact Hc |]. rewrite Hc.
    rewrite <- Hmoves in Hin. apply valid_move_iff in Hin as [Hrange _].
    destruct (Z.ltb_spec c 0); [lia | reflexivity].
Qed.

End Program.

Section ProgramCases.

Implicit Types (input rest tail : string) (p : Z).

Lemma main_no_player fuel now input :
  scanf_d input = None ->
  main fuel now input =
    Some (failure now ("Error: Failed to read player number" ++ nl)).
Proof. intros H. unfold main. rewrite H. reflexivity. Qed.

Lemma main_invalid_player fuel now input p rest :
  scanf_d input = Some (p, rest) -> ~ is_player p ->
  main fuel now input =
    Some (failure now ("Error: Invalid player number " ++ show_int p ++ nl)).
Proof.
  intros H Hnp. unfold main. rewrite H.
  replace (negb (p =? 1) && negb (p =? 2)) with true; [reflexivity |].
  symmetry. apply andb_true_intro.
  split; apply negb_true_iff, Z.eqb_neq; intros ->; apply Hnp;
    [left | right]; reflexivity.
Qed.

(** A board conversion fails: the message names the first cell that could
    not be read. *)
Lemma main_board_unread fuel now input p rest :
  scanf_d input = Some (p, rest) -> is_player p ->
  scan_ints 42 rest = None ->
  exists i j vs tail,
    in_grid (i, j) /\
    scan_ints (Z.to_nat (COLS * i + j)) rest = Some (vs, tail) /\
    scanf_d tail = None /\
    main fuel now input =
      Some (failure now ("Error: Failed to read board at [" ++ show_int i
                           ++ "][" ++ show_int j ++ "]" ++ nl)).
Proof.
  intros Hp Hpl Hnone.
  destruct (read_board all_cells rest blank_board) as [[b tail] | [i j]] eqn:Hb.
  - destruct (read_board_stores all_cells rest blank_board b tail
                blank_board_shape NoDup_all_cells) as (vs & Hvs & _);
      [| exact Hb |].
    + intros ij Hin. apply in_all_cells, list_elem_of_In, Hin.
    + change (length all_cells) with 42%nat in Hvs. congruence.
  - destruct (read_board_stops all_cells rest blank_board (i, j) Hb)
      as (_ & k & vs & tail & Hk & Hvs & Hfail).
    assert (in_grid (i, j)) as Hg
      by (apply in_all_cells; eapply list_elem_of_lookup_2; exact Hk).
    exists i, j, vs, tail. split; [exact Hg |]. split.
    + rewrite <- (NoDup_lookup all_cells k _ (i, j) NoDup_all_cells Hk
                    (all_cells_index i j Hg)).
      exact Hvs.
    + split; [exact Hfail |]. unfold main. rewrite Hp, Hb.
      destruct Hpl as [-> | ->]; reflexivity.
Qed.

End ProgramCases.

(** C8.  With the fuel the fixed depth needs, [main] always terminates with
    an outcome.  It exits with EXIT_SUCCESS exactly when the input holds an
    integer 1 or 2 followed by ROWS * COLS integers of which some column
    holds fewer than ROWS non-zero ones; it then prints the single character
    'A' + c, where c is the column selected on the root state that holds
    these integers, and nothing on the error channel.  When the player
    number cannot be read or is not 1 or 2, when one of the ROWS * COLS board
    integers cannot be read, or when no column is left, it exits with
    EXIT_FAILURE, prints nothing on standard output and the message of that
    case on the error channel. *)
Theorem main_exit_status (fuel : nat) (now : Z) (input : string) :
  (Z.to_nat MAX_DEPTH <= fuel)%nat ->
  exists o,
    main fuel now input = Some o /\
    (exit_status o = EXIT_SUCCESS <->
     exists p rest vs tail,
       scanf_d input = Some (p, rest) /\ is_player p /\
       scan_ints 42 rest = Some (vs, tail) /\
       exists j, 0 <= j < COLS /\ column_fill vs j < ROWS) /\
    (exit_status o = EXIT_SUCCESS ->
     exists p rest vs tail s c,
       scanf_d input = Some (p, rest) /\
       scan_ints 42 rest = Some (vs, tail) /\
       wf_state s /\ player s = p /\
       (forall i j, in_grid (i, j) ->
          cell (board s) i j = nth (Z.to_nat (COLS * i + j)) vs 0) /\
       (forall j, 0 <= j < COLS -> arr_get (top s) j = column_fill vs j) /\
       alphabeta_search fuel s MAX_DEPTH p = Some c /\
       In c (get_valid_moves s) /\
       out o = String (stack_name c) EmptyString /\
       Z.of_nat (nat_of_ascii (stack_name c)) = 65 + c /\
       err o = EmptyString) /\
    (exit_status o <> EXIT_SUCCESS ->
     exit_status o = EXIT_FAILURE /\ out o = EmptyString /\
     err o <> EmptyString) /\
    (scanf_d input = None ->
     o = failure now ("Error: Failed to read player number" ++ nl)) /\
    (forall p rest,
       scanf_d input = Some (p, rest) -> ~ is_player p ->
       o = failure now ("Error: Invalid player number " ++ show_int p ++ nl)) /\
    (forall p rest,
       scanf_d input = Some (p, rest) -> is_player p ->
       scan_ints 42 rest = None ->
       exists i j vs tail,
         in_grid (i, j) /\
         scan_ints (Z.to_nat (COLS * i + j)) rest = Some (vs, tail) /\
         scanf_d tail = None /\
         o = failure now ("Error: Failed to read board at [" ++ show_int i
                            ++ "][" ++ show_int j ++ "]" ++ nl)) /\
    (forall p rest vs tail,
       scanf_d input = Some (p, rest) -> is_player p ->
       scan_ints 42 rest = Some (vs, tail) ->
       (forall j, 0 <= j < COLS -> ROWS <= column_fill vs j) ->
       o = failure now ("Error: No valid move found." ++ nl)).
Proof.
  intros Hfuel.
  destruct (scanf_d input) as [[p rest] |] eqn:Hp.
  2: { exists (failure now ("Error: Failed to read player number" ++ nl)).
       split; [apply main_no_player, Hp |].
       unfold failure, EXIT_FAILURE, EXIT_SUCCESS. cbn [exit_status out err].
       repeat split; try discriminate; try reflexivity.
       - intros (p & rest & vs & tail & H & _). discriminate H. }
  assert ({is_player p} + {~ is_player p}) as [Hpl | Hnp].
  { unfold is_player. destruct (Z.eq_dec p 1); [auto |].
    destruct (Z.eq_dec p 2); [auto |]. right. tauto. }
  2: { exists (failure now ("Error: Invalid player number " ++ show_int p ++ nl)).
       split; [apply (main_invalid_player _ _ _ p rest); assumption |].
       unfold failure, EXIT_FAILURE, EXIT_SUCCESS. cbn [exit_status out err].
       repeat split; try discriminate; try reflexivity.
       - intros (p' & rest' & vs & tail & [= <- <-] & Hpl' & _). contradiction.
       - intros p' rest' [= <- <-] _. reflexivity.
       - intros p' rest' [= <- <-] Hpl'. contradiction.
       - intros p' rest' vs tail [= <- <-] Hpl'. contradiction. }
  destruct (scan_ints 42 rest) as [[vs tail] |] eqn:Hvs.
  2: { destruct (main_board_unread fuel now input p rest Hp Hpl Hvs)
         as (i & j & vs & tail & Hg & Hk & Hfail & Hmain).
       eexists. split; [exact Hmain |].
       unfold failure, EXIT_FAILURE, EXIT_SUCCESS. cbn [exit_status out err].
       repeat split; try discriminate; try reflexivity.
       - intros (p' & rest' & vs' & tail' & [= <- <-] & _ & H & _). congruence.
       - intros p' rest' [= <- <-] Hnp. contradiction.
       - intros p' rest' [= <- <-] _ _. exists i, j, vs, tail. auto.
       - intros p' rest' vs' tail' [= <- <-] _ H. congruence. }
  destruct (root_state_of_scan input rest tail p vs Hp Hpl Hvs)
    as (s & Hroot & Hplayer & Hwf & _ & Hcells & Htop).
  destruct (main_on_root fuel now input s Hfuel Hroot)
    as [[Hnil Hmain] | (c & Hin & Hc & Hmain)].
  - assert (forall j, 0 <= j < COLS -> ROWS <= column_fill vs j) as Hfull.
    { intros j Hj. rewrite <- (Htop j Hj).
      destruct (Z.lt_ge_cases (arr_get (top s) j) ROWS) as [Hlt |]; [| lia].
      exfalso. assert (In j (get_valid_moves s)) as Hj'
        by (apply valid_move_iff; auto).
      rewrite Hnil in Hj'. exact Hj'. }
    eexists. split; [exact Hmain |].
    unfold failure, EXIT_FAILURE, EXIT_SUCCESS. cbn [exit_status out err].
    repeat split; try discriminate; try reflexivity.
    + intros (p' & rest' & vs' & tail' & [= <- <-] & _ & H & j & Hj & Hlt).
      rewrite Hvs in H. injection H as <- <-. specialize (Hfull j Hj). lia.
    + intros p' rest' [= <- <-] Hnp. contradiction.
    + intros p' rest' [= <- <-] _ H. congruence.
  - eexists. split; [exact Hmain |].
    unfold failure, EXIT_FAILURE, EXIT_SUCCESS. cbn [exit_status out err].
    pose proof (proj1 (valid_move_iff s c) Hin) as [Hrange Hlt].
    split; [| split; [| split; [| split; [| split; [| split]]]]].
    + split; [| reflexivity]. intros _. exists p, rest, vs, tail.
      repeat split; try assumption. exists c. rewrite <- (Htop c Hrange). auto.
    + intros _. exists p, rest, vs, tail, s, c.
      rewrite Hplayer in Hc.
      split; [reflexivity |]. split; [exact Hvs |]. split; [exact Hwf |].
      split; [exact Hplayer |]. split; [exact Hcells |]. split; [exact Htop |].
      split; [exact Hc |]. split; [exact Hin |]. split; [reflexivity |].
      split; [apply stack_name_letter, Hrange | reflexivity].
    + intros H. exfalso. apply H. reflexivity.
    + discriminate.
    + intros p' rest' [= <- <-] Hnp. contradiction.
    + intros p' rest' [= <- <-] _ H. congruence.
    + intros p' rest' vs' tail' [= <- <-] _ H Hfull.
      rewrite Hvs in H. injection H as <- <-.
      specialize (Hfull c Hrange). rewrite <- (Htop c Hrange) in Hfull. lia.
Qed.

Lemma main_exit_status_witness :
  exists o, main 6 0 input_three = Some o /\ exit_status o = EXIT_SUCCESS.
Proof.
  destruct (main_exit_status 6 0 input_three) as (o & Hmain & Hiff & _).
  - unfold MAX_DEPTH. lia.
  - exists o. split; [exact Hmain |]. apply Hiff.
    do 4 eexists. split; [vm_compute; reflexivity |].
    split; [left; reflexivity |]. split; [vm_compute; reflexivity |].
    exists 3. vm_compute. repeat split; intros H; discriminate H.
Defined.

(** The outcomes of the program on the sample inputs. *)
Example main_three :
  main 6 0 input_three =
    Some {| exit_status := 0; out := "D"; err := ""; rand_seed := 0 |}.
Proof. vm_compute. reflexivity. Qed.

Example main_no_board :
  main 6 0 "2 1 2 0 x" =
    Some (failure 0 ("Error: Failed to read board at [0][3]" ++ nl)).
Proof. vm_compute. reflexivity. Qed.

Example main_bad_player :
  main 6 0 "3 0 0" =
    Some (failure 0 ("Error: Invalid player number 3" ++ nl)).
Proof. vm_compute. reflexivity. Qed.

(** Numbers that do not fit an [int] are stored as the C library stores
    them: the player number 4294967297 is read as 1 and the cell 4294967296
    as 0, and the run succeeds. *)
Example scanf_d_wide :
  scanf_d "4294967297" = Some (1, EmptyString) /\
  scanf_d " 4294967296 2" = Some (0, " 2"%string) /\
  scanf_d "-2147483649" = Some (2147483647, EmptyString) /\
  scanf_d "99999999999999999999" = Some (-1, EmptyString) /\
  scanf_d "-7x" = Some (-7, "x"%string) /\
  scanf_d "- 7" = None /\ scanf_d "x" = None /\ scanf_d "  " = None.
Proof. repeat split; vm_compute; reflexivity. Qed.

Example main_wide :
  root_state_of input_wide = Some (empty_state 1) /\
  main 6 0 input_wide =
    Some {| exit_status := 0; out := "A"; err := ""; rand_seed := 0 |}.
Proof. split; vm_compute; reflexivity. Qed.

Example main_short :
  main 6 0 input_short =
    Some (failure 0 ("Error: Failed to read board at [5][6]" ++ nl)).
Proof. vm_compute. reflexivity. Qed.

(** C9.  The outcome of a run is a function of the input: the exit status
    and both output channels are the same whatever the seed given to
    [srand] (and whatever the fuel of the model, once sufficient); only the
    stored seed differs.  On the empty board with player 1 to move the
    printed column lies in [0, 6]. *)
Theorem main_deterministic (fuel1 fuel2 : nat) (now1 now2 : Z) (input : string) :
  (Z.to_nat MAX_DEPTH <= fuel1)%nat -> (Z.to_nat MAX_DEPTH <= fuel2)%nat ->
  (exists o1 o2,
     main fuel1 now1 input = Some o1 /\ main fuel2 now2 input = Some o2 /\
     exit_status o1 = exit_status o2 /\ out o1 = out o2 /\ err o1 = err o2 /\
     rand_seed o1 = now1 /\ rand_seed o2 = now2) /\
  (exists c,
     0 <= c <= 6 /\
     alphabeta_search fuel1 (empty_state 1) MAX_DEPTH 1 = Some c /\
     main fuel1 now1 input_empty =
       Some {| exit_status := EXIT_SUCCESS;
               out := String (stack_name c) EmptyString;
               err := EmptyString;
               rand_seed := now1 |}).
Proof.
  intros Hf1 Hf2. split.
  - destruct (root_state_of input) as [s |] eqn:Hroot.
    + destruct (main_on_root fuel1 now1 input s Hf1 Hroot)
        as [[Hnil1 Hmain1] | (c1 & Hin1 & Hc1 & Hmain1)];
        destruct (main_on_root fuel2 now2 input s Hf2 Hroot)
        as [[Hnil2 Hmain2] | (c2 & Hin2 & Hc2 & Hmain2)].
      * do 2 eexists. split; [exact Hmain1 |]. split; [exact Hmain2 |].
        repeat split.
      * rewrite Hnil1 in Hin2. destruct Hin2.
      * rewrite Hnil2 in Hin1. destruct Hin1.
      * rewrite (alphabeta_search_fuel_indep fuel1 fuel2) in Hc1
          by (apply enough_root_max_depth; assumption).
        rewrite Hc1 in Hc2. injection Hc2 as <-.
        do 2 eexists. split; [exact Hmain1 |]. split; [exact Hmain2 |].
        repeat split.
    + destruct (main_rejects input Hroot) as (msg & _ & Hmain).
      exists (failure now1 msg), (failure now2 msg).
      split; [apply Hmain |]. split; [apply Hmain |]. repeat split.
  - assert (root_state_of input_empty = Some (empty_state 1)) as Hroot
      by (vm_compute; reflexivity).
    destruct (main_on_root fuel1 now1 input_empty _ Hf1 Hroot)
      as [[Hnil _] | (c & Hin & Hc & Hmain)].
    + vm_compute in Hnil. discriminate Hnil.
    + exists c. apply valid_move_iff in Hin as [Hrange _].
      split; [unfold COLS in Hrange; lia |]. split; [exact Hc | exact Hmain].
Qed.

Lemma main_deterministic_witness :
  exists o1 o2,
    main 6 0 input_three = Some o1 /\ main 9 1 input_three = Some o2 /\
    out o1 = out o2.
Proof.
  destruct (main_deterministic 6 9 0 1 input_three)
    as [(o1 & o2 & H1 & H2 & _ & Hout & _) _].
  - unfold MAX_DEPTH. lia.
  - unfold MAX_DEPTH. lia.
  - exists o1, o2. auto.
Defined.

Example main_empty :
  main 6 0 input_empty =
    Some {| exit_status := 0; out := "A"; err := ""; rand_seed := 0 |}.
Proof. vm_compute. reflexivity. Qed.

(** The scenario of the specification: on a full board without four in a
    row the winner is -1 (draw), the evaluator returns 0, and [main] reports
    that no move is possible. *)
Example full_board_draw :
  exists s, root_state_of input_full = Some s /\
    occupied (board s) = 42 /\ check_winner s = -1 /\
    evaluate_state s 1 = 0 /\ evaluate_state s 2 = 0 /\
    main 6 0 input_full =
      Some (failure 0 ("Error: No valid move found." ++ nl)).
Proof.
  eexists. split; [vm_compute; reflexivity |].
  repeat split; vm_compute; reflexivity.
Qed.

(** * Further properties of the code *)

(** ** Valid moves and terminal states *)

Section ValidMoves.

Implicit Types (s : State).

Lemma filter_length_bound {A : Type} (f : A -> bool) (l : list A) :
  (length (List.filter f l) <= length l)%nat.
Proof.
  induction l as [| x l IH]; simpl; [lia |]. destruct (f x); simpl; lia.
Qed.

Lemma filter_nil_forallb {A : Type} (f : A -> bool) (l : list A) :
  List.filter f l = [] <-> forallb (fun x => negb (f x)) l = true.
Proof.
  induction l as [| x l IH]; simpl; [tauto |].
  destruct (f x); simpl; [split; discriminate | exact IH].
Qed.

Lemma no_valid_move_iff_full s :
  get_valid_moves s = [] <-> board_full s = true.
Proof. apply filter_nil_forallb. Qed.

(** Some cell passes the test of [check_winner] exactly when some non-empty
    value has a line of four. *)
Lemma find_wins_iff_line s :
  (exists ij, List.find (fun ij => wins_at (board s) (fst ij) (snd ij))
                all_cells = Some ij) <->
  exists q, q <> 0 /\ has_line (board s) q.
Proof.
  split.
  - intros [[i j] Hfind]. apply find_some in Hfind as [Hin Hw].
    apply list_elem_of_In, in_all_cells in Hin.
    apply wins_at_iff in Hw as [Hne Hl]; [| exact Hin].
    exists (cell (board s) i j). split; [exact Hne |]. exists (i, j). exact Hl.
  - intros (q & Hq & ij & Hl).
    destruct (List.find _ all_cells) as [ij' |] eqn:Hfind; [eauto |].
    assert (wins_at (board s) (fst ij) (snd ij) = false) as Hw.
    { apply (find_none _ _ Hfind ij).
      apply list_elem_of_In, in_all_cells, (line_start_cell _ _ _ Hl). }
    rewrite (wins_at_line _ q ij Hq Hl) in Hw. discriminate Hw.
Qed.

Lemma check_winner_nonzero_iff s :
  check_winner s <> 0 <->
  (exists q, q <> 0 /\ has_line (board s) q) \/ get_valid_moves s = [].
Proof.
  rewrite <- find_wins_iff_line, no_valid_move_iff_full. unfold check_winner.
  destruct (List.find _ all_cells) as [[i j] |] eqn:Hfind.
  - split; [eauto |]. intros _.
    apply find_some in Hfind as [Hin Hw].
    apply list_elem_of_In, in_all_cells in Hin.
    apply wins_at_iff in Hw as [Hne _]; [exact Hne | exact Hin].
  - destruct (board_full s).
    + split; [auto | discriminate].
    + split; [congruence |]. intros [[ij Hij] | Hf]; discriminate.
Qed.

Lemma check_winner_zero_no_line s q :
  check_winner s = 0 -> q <> 0 -> ~ has_line (board s) q.
Proof.
  intros H0 Hq Hl.
  apply (proj2 (check_winner_nonzero_iff s)); [| exact H0]. left. eauto.
Qed.

End ValidMoves.

(** X1.  [get_valid_moves] fills at most COLS entries of the array it is
    given, with column indices in [0, COLS) in strictly ascending order (so
    without repetition), exactly those whose height is below ROWS; it finds
    no move exactly when the fullness loop of [check_winner] finds the board
    full. *)
Theorem get_valid_moves_array (s : State) :
  (length (get_valid_moves s) <= Z.to_nat COLS)%nat /\
  StronglySorted Z.lt (get_valid_moves s) /\
  (forall c, In c (get_valid_moves s) <->
             0 <= c < COLS /\ arr_get (top s) c < ROWS) /\
  (get_valid_moves s = [] <-> board_full s = true) /\
  (get_valid_moves s = [] <->
   forall j, 0 <= j < COLS -> ROWS <= arr_get (top s) j).
Proof.
  split; [apply (filter_length_bound _ cols) |].
  split; [apply valid_moves_sorted |]. split; [apply valid_move_iff |].
  split; [apply no_valid_move_iff_full |].
  rewrite no_valid_move_iff_full. apply board_full_iff.
Qed.

(** X2.  [copy_state] yields a state equal to its source: every cell, every
    height and the player to move are those of the source. *)
Theorem copy_state_exact (s : State) :
  copy_state s = s /\
  (forall i j, cell (board (copy_state s)) i j = cell (board s) i j) /\
  (forall j, arr_get (top (copy_state s)) j = arr_get (top s) j) /\
  player (copy_state s) = player s.
Proof. rewrite copy_state_id. repeat split. Qed.

(** X3.  [is_terminal] returns 0 or 1, and returns 1 exactly when some
    non-empty value has four in a row or no column is left to play. *)
Theorem is_terminal_iff (s : State) :
  (is_terminal s = 0 \/ is_terminal s = 1) /\
  (is_terminal s = 1 <-> check_winner s <> 0) /\
  (is_terminal s = 1 <->
   (exists q, q <> 0 /\ has_line (board s) q) \/ get_valid_moves s = []).
Proof.
  assert (is_terminal s = 1 <-> check_winner s <> 0) as Hiff.
  { unfold is_terminal. destruct (Z.eqb_spec (check_winner s) 0); split;
      intros; try discriminate; try contradiction; auto. }
  split; [unfold is_terminal; destruct (check_winner s =? 0); auto |].
  split; [exact Hiff |]. rewrite Hiff. apply check_winner_nonzero_iff.
Qed.

(** X4.  The guard [num_moves == 0] of [alphabeta] is never taken: a state
    that passes the test [winner != 0] with winner 0 has a valid move, so at
    a depth other than 0 the search enters one of its two loops with a
    non-empty list of moves. *)
Theorem alphabeta_no_move_guard_dead (fuel : nat) (s : State)
    (depth alpha beta maximizing root_player : Z) :
  check_winner s = 0 ->
  get_valid_moves s <> [] /\
  (depth <> 0 ->
   alphabeta (S fuel) s depth alpha beta maximizing root_player =
     if negb (maximizing =? 0)
     then max_loop (fun c a b => alphabeta fuel c (depth - 1) a b 0 root_player)
            s (get_valid_moves s) INT_MIN alpha beta
     else min_loop (fun c a b => alphabeta fuel c (depth - 1) a b 1 root_player)
            s (get_valid_moves s) INT_MAX alpha beta).
Proof.
  intros H0.
  assert (get_valid_moves s <> []) as Hne.
  { intros Hnil. apply (proj2 (check_winner_nonzero_iff s)); [| exact H0].
    right. exact Hnil. }
  split; [exact Hne |]. intros Hd. rewrite alphabeta_S, H0.
  apply Z.eqb_neq in Hd. rewrite Hd. cbn [Z.eqb negb orb].
  destruct (get_valid_moves s) as [| mv rest]; [congruence |]. reflexivity.
Qed.

Lemma alphabeta_no_move_guard_dead_witness :
  get_valid_moves (empty_state 1) <> [].
Proof.
  apply (alphabeta_no_move_guard_dead 0 (empty_state 1) 1 INT_MIN INT_MAX 1 1).
  vm_compute. reflexivity.
Defined.

(** ** The evaluator *)

Lemma evaluate_state_opposite (s : State) :
  evaluate_state s 1 = - evaluate_state s 2.
Proof.
  unfold evaluate_state. rewrite !count_loop_eq.
  change (3 - 1) with 2. change (3 - 2) with 1. cbn [fst snd].
  destruct (Z.eqb_spec (check_winner s) 1) as [H1 | H1].
  - rewrite H1. reflexivity.
  - destruct (Z.eqb_spec (check_winner s) 2) as [H2 | H2]; [reflexivity |].
    destruct (check_winner s =? -1); lia.
Qed.

(** X5.  The evaluator is zero-sum: what a state is worth to player 1 is
    the opposite of what it is worth to player 2, whether the state is won,
    drawn or scored by the stone count. *)
Theorem evaluate_state_zero_sum (s : State) :
  evaluate_state s 1 + evaluate_state s 2 = 0.
Proof. rewrite evaluate_state_opposite. lia. Qed.

(** X6.  Every score lies in [-100000, 100000].  For a root player 1 or 2
    the score of a state in progress ([check_winner] 0) is the stone
    difference and lies in [-42, 42], and the scores 100000 and -100000 are
    given only to states that [check_winner] reports as won by a player. *)
Theorem evaluate_state_scale (s : State) (root_player : Z) :
  is_player root_player ->
  -100000 <= evaluate_state s root_player <= 100000 /\
  (check_winner s = 0 -> -42 <= evaluate_state s root_player <= 42) /\
  (evaluate_state s root_player = 100000 -> check_winner s = root_player) /\
  (evaluate_state s root_player = -100000 -> check_winner s = 3 - root_player).
Proof.
  intros Hp. split; [apply evaluate_state_range |].
  pose proof (stones_bounds (board s) root_player) as Hr.
  pose proof (stones_bounds (board s) (3 - root_player)) as Ho.
  unfold evaluate_state. rewrite count_loop_eq. cbn [fst snd].
  destruct (Z.eqb_spec (check_winner s) root_player) as [H1 | H1].
  { repeat split; try lia; try congruence.
    intros H0. destruct Hp as [-> | ->]; lia. }
  destruct (Z.eqb_spec (check_winner s) (3 - root_player)) as [H2 | H2].
  { repeat split; try lia; try congruence.
    intros H0. destruct Hp as [-> | ->]; lia. }
  destruct (Z.eqb_spec (check_winner s) (-1)); repeat split; lia.
Qed.

Lemma evaluate_state_scale_witness :
  -42 <= evaluate_state (empty_state 1) 2 <= 42.
Proof.
  apply (evaluate_state_scale (empty_state 1) 2).
  - right. reflexivity.
  - vm_compute. reflexivity.
Defined.

(** ** Moves *)

Section MoveProperties.

Implicit Types (s : State).

Lemma legal_play_heights s s' :
  wf_state s -> heights_nonneg s -> legal_play s s' ->
  wf_state s' /\ heights_nonneg s'.
Proof.
  intros Hwf Hnn Hplay. induction Hplay as [| s' c Hplay IH Hin]; [auto |].
  destruct IH as [Hwf' Hnn']. split; [apply apply_move_wf, Hwf' |].
  apply valid_move_iff in Hin as [Hc _]. intros j Hj.
  destruct (decide (j = c)) as [-> | Hne].
  - rewrite apply_move_top_eq by assumption. specialize (Hnn' c Hc). lia.
  - rewrite apply_move_top_ne by assumption. apply Hnn', Hj.
Qed.

Lemma heights_ok_nonneg s : heights_ok s -> heights_nonneg s.
Proof. intros Hok j Hj. rewrite (Hok j Hj). apply count_if_bounds. Qed.

End MoveProperties.

(** X7.  Only the mover can complete a line: after a valid move from a
    state in progress ([check_winner] 0), every line of four on the board
    belongs to the player who moved, and [check_winner] returns that player,
    -1 or 0. *)
Theorem move_wins_for_mover_only (s : State) (c : Z) :
  wf_state s -> check_winner s = 0 -> In c (get_valid_moves s) ->
  0 <= arr_get (top s) c ->
  (forall q, q <> 0 -> has_line (board (apply_move s c)) q -> q = player s) /\
  (check_winner (apply_move s c) = player s \/
   check_winner (apply_move s c) = -1 \/
   check_winner (apply_move s c) = 0).
Proof.
  intros Hwf H0 Hin Ht0. apply valid_move_iff in Hin as [Hc Ht].
  assert (forall q, q <> 0 -> has_line (board (apply_move s c)) q ->
                    q = player s) as Hlines.
  { intros q Hq (ij & d & Hfour).
    destruct (Z.eq_dec q (player s)) as [| Hne]; [assumption |].
    exfalso. apply (check_winner_zero_no_line s q H0 Hq).
    exists ij, d. intros k Hk. destruct (Hfour k Hk) as [Hg Hcell].
    split; [exact Hg |]. rewrite <- Hcell. symmetry.
    apply apply_move_cell_ne.
    destruct (decide (fst (ahead d k ij) = arr_get (top s) c)) as [Hi |];
      [| left; assumption].
    destruct (decide (snd (ahead d k ij) = c)) as [Hj |]; [| right; assumption].
    exfalso. apply Hne. rewrite <- Hcell, Hi, Hj.
    apply apply_move_cell_eq; [assumption | assumption | lia]. }
  split; [exact Hlines |]. unfold check_winner.
  destruct (List.find _ all_cells) as [[i j] |] eqn:Hfind.
  - left. apply find_some in Hfind as [Hin Hw].
    apply list_elem_of_In, in_all_cells in Hin.
    apply wins_at_iff in Hw as [Hne Hl]; [| exact Hin].
    apply Hlines; [exact Hne |]. exists (i, j). exact Hl.
  - right. destruct (board_full _); auto.
Qed.

Lemma move_wins_for_mover_only_witness :
  exists s, root_state_of input_three = Some s /\
    check_winner (apply_move s 3) = 1 /\
    forall q, q <> 0 -> has_line (board (apply_move s 3)) q -> q = player s.
Proof.
  eexists. split; [vm_compute; reflexivity |].
  split; [vm_compute; reflexivity |].
  eapply (move_wins_for_mover_only _ 3).
  - repeat split; repeat constructor.
  - vm_compute. reflexivity.
  - vm_compute. auto 10.
  - vm_compute. intros H; discriminate H.
Defined.

(** X8.  A move into column [c] changes the valid moves only at [c]: every
    other column stays valid or invalid as it was, and [c] stays valid
    exactly when its new height is still below ROWS. *)
Theorem valid_moves_after_move (s : State) (c j : Z) :
  wf_state s -> 0 <= c < COLS ->
  (In j (get_valid_moves (apply_move s c)) <->
   0 <= j < COLS /\
   if decide (j = c) then arr_get (top s) c + 1 < ROWS
   else arr_get (top s) j < ROWS) /\
  (j <> c ->
   (In j (get_valid_moves (apply_move s c)) <-> In j (get_valid_moves s))).
Proof.
  intros Hwf Hc. rewrite !valid_move_iff. split.
  - destruct (decide (j = c)) as [-> | Hne].
    + rewrite apply_move_top_eq by assumption. tauto.
    + rewrite apply_move_top_ne by assumption. tauto.
  - intros Hne. rewrite apply_move_top_ne by assumption. tauto.
Qed.

Lemma valid_moves_after_move_witness :
  In 2 (get_valid_moves (apply_move (empty_state 1) 3)) <->
  In 2 (get_valid_moves (empty_state 1)).
Proof.
  apply (valid_moves_after_move (empty_state 1) 3 2).
  - apply empty_state_wf.
  - unfold COLS. lia.
  - lia.
Defined.

(** X9.  The search never writes outside the arrays: in every state reached
    by valid moves from a root state that [main] builds, a valid move [c]
    has [0 <= c < COLS] and [0 <= top[c] < ROWS], so [apply_move] stores the
    stone in [board[top[c]][c]] inside the grid, and after the move the
    height is at most ROWS. *)
Theorem search_writes_in_bounds (input : string) (s s' : State) (c : Z) :
  root_state_of input = Some s -> legal_play s s' ->
  In c (get_valid_moves s') ->
  wf_state s' /\ 0 <= c < COLS /\ 0 <= arr_get (top s') c < ROWS /\
  in_grid (arr_get (top s') c, c) /\
  cell (board (apply_move s' c)) (arr_get (top s') c) c = player s' /\
  0 <= arr_get (top (apply_move s' c)) c <= ROWS.
Proof.
  intros Hroot Hplay Hin.
  destruct (root_state_of_wf input s Hroot) as (Hwf & _ & Hok).
  destruct (legal_play_heights s s' Hwf (heights_ok_nonneg s Hok) Hplay)
    as [Hwf' Hnn'].
  apply valid_move_iff in Hin as [Hc Ht]. specialize (Hnn' c Hc).
  split; [exact Hwf' |]. split; [exact Hc |]. split; [lia |].
  split; [split; simpl; lia |].
  split; [apply apply_move_cell_eq; assumption || lia |].
  rewrite apply_move_top_eq by assumption. lia.
Qed.

Lemma search_writes_in_bounds_witness :
  exists s, root_state_of input_three = Some s /\
    in_grid (arr_get (top (apply_move s 3)) 0, 0).
Proof.
  eexists. split; [vm_compute; reflexivity |].
  eapply (search_writes_in_bounds input_three _ _ 0).
  - vm_compute. reflexivity.
  - apply legal_play_move; [apply legal_play_here |]. vm_compute. auto 10.
  - vm_compute. auto 10.
Defined.

(** ** Termination and value of the search *)

Section SearchProperties.

Implicit Types (s : State).

Lemma free_cells_bound_list s (l : list Z) :
  (forall j, In j l -> 0 <= arr_get (top s) j) ->
  fold_right (fun j acc => Z.max 0 (ROWS - arr_get (top s) j) + acc) 0 l
    <= ROWS * Z.of_nat (length l).
Proof.
  unfold ROWS. induction l as [| j l IH]; intros Hnn; simpl fold_right.
  - simpl. lia.
  - specialize (IH (fun x Hx => Hnn x (or_intror Hx))).
    specialize (Hnn j (or_introl eq_refl)). simpl length. lia.
Qed.

Lemma free_cells_bound s : heights_nonneg s -> free_cells s <= ROWS * COLS.
Proof.
  intros Hnn. unfold free_cells.
  apply (free_cells_bound_list s cols). intros j Hj.
  apply Hnn, in_cols, list_elem_of_In, Hj.
Qed.

(** The full window returns the exact minimax value. *)
Lemma alphabeta_full_window fuel s depth n maximizing root_player :
  agree depth n s -> enough fuel s depth ->
  alphabeta fuel s depth INT_MIN INT_MAX maximizing root_player =
    Some (minimax n s (negb (maximizing =? 0)) root_player).
Proof.
  intros Hag Hen.
  destruct (alphabeta_total fuel s depth INT_MIN INT_MAX maximizing root_player
              Hen) as [v Hv].
  rewrite Hv. f_equal.
  apply (alphabeta_fail_soft_agree _ _ _ n) in Hv;
    [| exact Hag | unfold INT_MIN, INT_MAX; lia..].
  pose proof (minimax_range n s (negb (maximizing =? 0)) root_player).
  destruct Hv as (_ & Hin & _). apply Hin. unfold INT_MIN, INT_MAX. lia.
Qed.

End SearchProperties.

(** X10.  The search terminates at every depth, negative ones included: on
    a state of the right shape with no negative height, 43 nested calls
    (one per free cell, plus one) always suffice, whatever the depth, the
    window and the kind of node, and the value returned lies in
    [-100000, 100000]; so the sentinels INT_MIN and INT_MAX are never
    returned. *)
Theorem alphabeta_terminates (fuel : nat) (s : State)
    (depth alpha beta maximizing root_player : Z) :
  wf_state s -> heights_nonneg s -> (43 <= fuel)%nat ->
  exists v,
    alphabeta fuel s depth alpha beta maximizing root_player = Some v /\
    -100000 <= v <= 100000 /\ INT_MIN < v < INT_MAX.
Proof.
  intros Hwf Hnn Hfuel.
  destruct (alphabeta_total fuel s depth alpha beta maximizing root_player)
    as [v Hv].
  - left. split; [exact Hwf |]. unfold remaining.
    pose proof (free_cells_bound s Hnn). pose proof (free_cells_nonneg s).
    unfold ROWS, COLS in *. lia.
  - exists v. split; [exact Hv |]. apply alphabeta_range in Hv.
    unfold INT_MIN, INT_MAX. lia.
Qed.

Lemma alphabeta_terminates_witness :
  exists v, alphabeta 43 (empty_state 1) 2 0 0 1 1 = Some v /\
            -100000 <= v <= 100000 /\ INT_MIN < v < INT_MAX.
Proof.
  apply (alphabeta_terminates 43 (empty_state 1) 2 0 0 1 1).
  - apply empty_state_wf.
  - intros j Hj. apply heights_ok_nonneg; [apply init_state_heights_ok | exact Hj].
  - lia.
Defined.

(** X11.  A negative depth is no leaf: [depth == 0] never holds below it,
    and the search with the full window returns the minimax value of the
    whole remaining game (every line of play followed until a win or a full
    board).  Looking further than the free cells changes nothing. *)
Theorem alphabeta_negative_depth (fuel n : nat) (s : State)
    (depth maximizing root_player : Z) :
  wf_state s -> depth < 0 -> (remaining s < fuel)%nat -> (remaining s < n)%nat ->
  alphabeta fuel s depth INT_MIN INT_MAX maximizing root_player =
    Some (minimax n s (negb (maximizing =? 0)) root_player) /\
  minimax n s (negb (maximizing =? 0)) root_player =
    minimax (S (remaining s)) s (negb (maximizing =? 0)) root_player.
Proof.
  intros Hwf Hd Hfuel Hn.
  assert (forall m, (remaining s < m)%nat ->
            alphabeta fuel s depth INT_MIN INT_MAX maximizing root_player =
              Some (minimax m s (negb (maximizing =? 0)) root_player)) as H.
  { intros m Hm. apply alphabeta_full_window.
    - right. auto.
    - left. auto. }
  split; [apply H, Hn |].
  pose proof (H n Hn) as H1. pose proof (H (S (remaining s)) ltac:(lia)) as H2.
  congruence.
Qed.

Lemma alphabeta_negative_depth_witness :
  exists s, root_state_of input_almost_full = Some s /\
    check_winner s = 0 /\
    alphabeta 2 s (-1) INT_MIN INT_MAX 1 2 = Some (minimax 2 s true 2).
Proof.
  eexists. split; [vm_compute; reflexivity |].
  split; [vm_compute; reflexivity |].
  eapply (alphabeta_negative_depth 2 2 _ (-1) 1 2).
  - repeat split; repeat constructor.
  - lia.
  - vm_compute. lia.
  - vm_compute. lia.
Defined.

(** X12.  Pruning does not change the selected move: for a depth of at
    least 1 the selector returns the first valid column whose child has the
    greatest unpruned minimax value to [depth - 1] plies, the child being a
    minimizing node. *)
Theorem alphabeta_search_minimax (fuel : nat) (root : State)
    (depth root_player : Z) :
  0 < depth <= Z.of_nat fuel -> get_valid_moves root <> [] ->
  exists c,
    alphabeta_search fuel root depth root_player = Some c /\
    In c (get_valid_moves root) /\
    forall c', In c' (get_valid_moves root) ->
      minimax (Z.to_nat (depth - 1)) (apply_move root c') false root_player
        <= minimax (Z.to_nat (depth - 1)) (apply_move root c) false root_player /\
      (c' < c ->
       minimax (Z.to_nat (depth - 1)) (apply_move root c') false root_player
         < minimax (Z.to_nat (depth - 1)) (apply_move root c) false root_player).
Proof.
  intros Hd Hne.
  assert (forall x, root_value fuel root depth root_player x =
            Some (minimax (Z.to_nat (depth - 1)) (apply_move root x) false
                    root_player)) as Hval.
  { intros x. unfold root_value.
    apply (alphabeta_full_window fuel (apply_move root x) (depth - 1)
             (Z.to_nat (depth - 1)) 0 root_player).
    - left. lia.
    - right. lia. }
  destruct (alphabeta_search_argmax fuel root depth root_player) as [_ Hsome].
  { right. exact Hd. }
  destruct (Hsome Hne) as (c & v & Hc & Hin & Hv & Hbest).
  exists c. split; [exact Hc |]. split; [exact Hin |].
  intros c' Hin'. destruct (Hbest c' Hin') as (v' & Hv' & Hle & Hlt).
  rewrite Hval in Hv, Hv'. injection Hv as <-. injection Hv' as <-. auto.
Qed.

Lemma alphabeta_search_minimax_witness :
  exists c,
    alphabeta_search 2 (empty_state 1) 2 1 = Some c /\
    In c (get_valid_moves (empty_state 1)) /\
    forall c', In c' (get_valid_moves (empty_state 1)) ->
      minimax (Z.to_nat (2 - 1)) (apply_move (empty_state 1) c') false 1
        <= minimax (Z.to_nat (2 - 1)) (apply_move (empty_state 1) c) false 1 /\
      (c' < c ->
       minimax (Z.to_nat (2 - 1)) (apply_move (empty_state 1) c') false 1
         < minimax (Z.to_nat (2 - 1)) (apply_move (empty_state 1) c) false 1).
Proof.
  apply (alphabeta_search_minimax 2 (empty_state 1) 2 1).
  - lia.
  - vm_compute. intros H; discriminate H.
Defined.

(** X13.  A win in one move is never missed: when some valid move makes
    [check_winner] return the root player, the selector returns a move of
    value 100000, the greatest value there is.  (It is the first move of
    that value, which need not be the move that wins at once.) *)
Theorem alphabeta_search_takes_win (fuel : nat) (root : State)
    (depth root_player c : Z) :
  is_player root_player -> enough_root fuel root depth ->
  In c (get_valid_moves root) ->
  check_winner (apply_move root c) = root_player ->
  root_value fuel root depth root_player c = Some 100000 /\
  exists best,
    alphabeta_search fuel root depth root_player = Some best /\
    In best (get_valid_moves root) /\
    root_value fuel root depth root_player best = Some 100000.
Proof.
  intros Hp Hen Hin Hwin.
  assert (root_value fuel root depth root_player c = Some 100000) as Hc.
  { unfold root_value.
    destruct (alphabeta_total fuel (apply_move root c) (depth - 1) INT_MIN
                INT_MAX 0 root_player (enough_root_child _ _ _ _ Hen Hin))
      as [v Hv].
    rewrite Hv. destruct fuel as [| fuel]; [discriminate |].
    rewrite alphabeta_S, Hwin in Hv.
    replace (negb (root_player =? 0)) with true in Hv
      by (destruct Hp as [-> | ->]; reflexivity).
    rewrite orb_true_r in Hv. injection Hv as <-. f_equal.
    unfold evaluate_state. rewrite Hwin, Z.eqb_refl. reflexivity. }
  split; [exact Hc |].
  destruct (alphabeta_search_argmax fuel root depth root_player Hen)
    as [_ Hsome].
  destruct Hsome as (best & v & Hbest & Hinb & Hv & Hall).
  { intros Hnil. rewrite Hnil in Hin. exact Hin. }
  exists best. split; [exact Hbest |]. split; [exact Hinb |].
  destruct (Hall c Hin) as (v' & Hv' & Hle & _).
  rewrite Hc in Hv'. injection Hv' as <-.
  pose proof (alphabeta_range _ _ _ _ _ _ _ _ Hv). rewrite Hv. f_equal. lia.
Qed.

Lemma alphabeta_search_takes_win_witness :
  exists s, root_state_of input_three = Some s /\
    root_value 1 s 1 1 3 = Some 100000.
Proof.
  eexists. split; [vm_compute; reflexivity |].
  eapply (alphabeta_search_takes_win 1 _ 1 1 3).
  - left. reflexivity.
  - right. lia.
  - vm_compute. auto 10.
  - vm_compute. reflexivity.
Defined.

(** ** Reading the board: the order of the cells *)

(** X14.  The reading loop of [main] stores the board integers unchecked
    and in row-major order: it succeeds exactly when ROWS * COLS conversions
    succeed, the cell (i, j) then holds the [int] stored by conversion
    number [COLS * i + j], whatever its value; and when it fails, the cell it
    reports is the first whose conversion fails. *)
Theorem read_board_row_major (inp : string) (b0 : list (list Z)) :
  board_shape b0 ->
  (forall b rest,
     read_board all_cells inp b0 = inl (b, rest) ->
     exists vs,
       scan_ints 42 inp = Some (vs, rest) /\ length vs = 42%nat /\
       (forall i j, in_grid (i, j) ->
          cell b i j = nth (Z.to_nat (COLS * i + j)) vs 0) /\
       (forall i j, in_grid (i, j) -> INT_MIN <= cell b i j <= INT_MAX)) /\
  (forall ij,
     read_board all_cells inp b0 = inr ij ->
     in_grid ij /\ scan_ints 42 inp = None /\
     exists vs rest,
       scan_ints (Z.to_nat (COLS * fst ij + snd ij)) inp = Some (vs, rest) /\
       scanf_d rest = None) /\
  ((exists b rest, read_board all_cells inp b0 = inl (b, rest)) <->
   exists vs rest, scan_ints 42 inp = Some (vs, rest)).
Proof.
  intros Hs.
  assert (forall b rest,
            read_board all_cells inp b0 = inl (b, rest) ->
            exists vs,
              scan_ints 42 inp = Some (vs, rest) /\ length vs = 42%nat /\
              forall i j, in_grid (i, j) ->
                cell b i j = nth (Z.to_nat (COLS * i + j)) vs 0) as Hok.
  { intros b rest H.
    destruct (read_board_stores all_cells inp b0 b rest Hs NoDup_all_cells)
      as (vs & Hscan & Hlen & Hcells); [| exact H |].
    - intros ij Hin. apply in_all_cells, list_elem_of_In, Hin.
    - exists vs. split; [exact Hscan |]. split; [exact Hlen |].
      intros i j Hg. apply (Hcells _ (i, j)), all_cells_index, Hg. }
  assert (forall ij,
            read_board all_cells inp b0 = inr ij ->
            in_grid ij /\ scan_ints 42 inp = None /\
            exists vs rest,
              scan_ints (Z.to_nat (COLS * fst ij + snd ij)) inp = Some (vs, rest) /\
              scanf_d rest = None) as Hfail.
  { intros ij H.
    destruct (read_board_stops all_cells inp b0 ij H)
      as (Hnone & k & vs & rest & Hk & Hvs & Hf).
    assert (in_grid ij) as Hg
      by (apply in_all_cells; eapply list_elem_of_lookup_2; exact Hk).
    split; [exact Hg |]. split; [exact Hnone |]. exists vs, rest.
    split; [| exact Hf].
    destruct ij as [i j]. cbn [fst snd].
    rewrite <- (NoDup_lookup all_cells k _ (i, j) NoDup_all_cells Hk
                  (all_cells_index i j Hg)).
    exact Hvs. }
  split; [| split; [exact Hfail |]; split].
  - intros b rest H. destruct (Hok b rest H) as (vs & Hscan & Hlen & Hcells).
    exists vs. split; [exact Hscan |]. split; [exact Hlen |].
    split; [exact Hcells |]. intros i j Hg. rewrite (Hcells i j Hg).
    apply (scan_ints_range _ _ _ _ Hscan).
  - intros (b & rest & H). destruct (Hok b rest H) as (vs & Hscan & _). eauto.
  - intros (vs & rest & Hscan).
    destruct (read_board all_cells inp b0) as [[b rest'] | ij] eqn:H; [eauto |].
    destruct (Hfail ij eq_refl) as (_ & Hnone & _). congruence.
Qed.

Lemma read_board_row_major_witness :
  exists b rest vs,
    read_board all_cells cells_other_values blank_board = inl (b, rest) /\
    scan_ints 42 cells_other_values = Some (vs, rest) /\
    cell b 2 0 = 5 /\ cell b 4 6 = -3.
Proof.
  destruct (read_board_row_major cells_other_values blank_board
              blank_board_shape) as (Hok & _ & _).
  eexists. eexists.
  match goal with
  | |- exists vs, ?R = inl (?b, ?rest) /\ _ =>
      assert (R = inl (b, rest)) as Hread by (vm_compute; reflexivity)
  end.
  destruct (Hok _ _ Hread) as (vs & Hscan & _ & Hcells).
  exists vs. split; [exact Hread |]. split; [exact Hscan |].
  split; reflexivity.
Defined.

(** X15.  [stack_name] maps the columns 0 .. COLS-1 to the letters 'A' ..
    'G' (codes 65 .. 71), a different letter for each column. *)
Theorem stack_name_injective (i j : Z) :
  0 <= i < COLS -> 0 <= j < COLS ->
  Z.of_nat (nat_of_ascii (stack_name i)) = 65 + i /\
  65 <= Z.of_nat (nat_of_ascii (stack_name i)) <= 71 /\
  (stack_name i = stack_name j -> i = j).
Proof.
  intros Hi Hj. pose proof (stack_name_letter i Hi) as Li.
  pose proof (stack_name_letter j Hj) as Lj.
  split; [exact Li |]. split; [unfold COLS in Hi; lia |].
  intros Heq. rewrite Heq in Li. lia.
Qed.

Lemma stack_name_injective_witness :
  Z.of_nat (nat_of_ascii (stack_name 6)) = 65 + 6.
Proof.
  apply (stack_name_injective 6 0); unfold COLS; lia.
Defined.

(** ** Stones, heights and free cells *)

Section Sums.

Lemma sum_over_cons {A : Type} (f : A -> Z) (x : A) (l : list A) :
  sum_over f (x :: l) = f x + sum_over f l.
Proof. reflexivity. Qed.

Lemma sum_over_ext {A : Type} (f g : A -> Z) (l : list A) :
  (forall x, In x l -> f x = g x) -> sum_over f l = sum_over g l.
Proof.
  induction l as [| x l IH]; intros H; [reflexivity |].
  rewrite !sum_over_cons, (H x) by (left; reflexivity).
  rewrite IH; [reflexivity |]. intros y Hy. apply H. right. exact Hy.
Qed.

Lemma sum_over_add {A : Type} (f g : A -> Z) (l : list A) :
  sum_over (fun x => f x + g x) l = sum_over f l + sum_over g l.
Proof.
  induction l as [| x l IH]; [reflexivity |]. rewrite !sum_over_cons, IH. lia.
Qed.

Lemma sum_over_opp {A : Type} (f : A -> Z) (l : list A) :
  sum_over (fun x => - f x) l = - sum_over f l.
Proof.
  induction l as [| x l IH]; [reflexivity |]. rewrite !sum_over_cons, IH. lia.
Qed.

Lemma sum_over_const {A : Type} (c : Z) (l : list A) :
  sum_over (fun _ => c) l = c * Z.of_nat (length l).
Proof.
  induction l as [| x l IH]; [simpl; lia |].
  rewrite sum_over_cons, IH. simpl length. lia.
Qed.

Lemma sum_over_app {A : Type} (f : A -> Z) (l1 l2 : list A) :
  sum_over f (l1 ++ l2) = sum_over f l1 + sum_over f l2.
Proof.
  induction l1 as [| x l1 IH]; [reflexivity |].
  simpl app. rewrite !sum_over_cons, IH. lia.
Qed.

Lemma sum_over_nonneg {A : Type} (f : A -> Z) (l : list A) :
  (forall x, In x l -> 0 <= f x) -> 0 <= sum_over f l.
Proof.
  induction l as [| y l IH]; intros Hnn; [simpl; lia |].
  rewrite sum_over_cons. pose proof (Hnn y (or_introl eq_refl)).
  assert (0 <= sum_over f l); [| lia].
  apply IH. intros x Hx. apply Hnn. right. exact Hx.
Qed.

Lemma sum_over_zero {A : Type} (f : A -> Z) (l : list A) :
  (forall x, In x l -> 0 <= f x) -> sum_over f l = 0 ->
  forall x, In x l -> f x = 0.
Proof.
  induction l as [| y l IH]; intros Hnn Hsum x Hx; [destruct Hx |].
  rewrite sum_over_cons in Hsum.
  pose proof (sum_over_nonneg f l (fun w Hw => Hnn w (or_intror Hw))).
  pose proof (Hnn y (or_introl eq_refl)).
  destruct Hx as [<- | Hx]; [lia |].
  apply IH; [| lia | exact Hx]. intros w Hw. apply Hnn. right. exact Hw.
Qed.

Lemma count_if_sum {A : Type} (P : A -> bool) (l : list A) :
  count_if P l = sum_over (fun x => Z.b2z (P x)) l.
Proof.
  induction l as [| x l IH]; [reflexivity |].
  rewrite count_if_cons, sum_over_cons, IH. reflexivity.
Qed.

Lemma sum_over_map {A B : Type} (h : B -> A) (f : A -> Z) (l : list B) :
  sum_over f (map h l) = sum_over (fun y => f (h y)) l.
Proof.
  induction l as [| y l IH]; [reflexivity |].
  simpl map. rewrite !sum_over_cons, IH. reflexivity.
Qed.

Lemma sum_over_flat_map {A B : Type} (h : B -> list A) (f : A -> Z)
    (l : list B) :
  sum_over f (flat_map h l) = sum_over (fun y => sum_over f (h y)) l.
Proof.
  induction l as [| y l IH]; [reflexivity |].
  simpl flat_map. rewrite sum_over_app, sum_over_cons, IH. reflexivity.
Qed.

(** The order of two nested sums can be exchanged. *)
Lemma sum_over_swap {A B : Type} (f2 : A -> B -> Z) (la : list A)
    (lb : list B) :
  sum_over (fun a => sum_over (fun b => f2 a b) lb) la =
  sum_over (fun b => sum_over (fun a => f2 a b) la) lb.
Proof.
  induction la as [| a la IH].
  - rewrite (sum_over_ext (fun b => sum_over (fun a => f2 a b) []) (fun _ => 0))
      by reflexivity.
    rewrite sum_over_const. simpl. lia.
  - rewrite sum_over_cons, IH.
    rewrite <- sum_over_add. apply sum_over_ext. intros b _. reflexivity.
Qed.

End Sums.

Lemma occupied_by_columns (b : list (list Z)) :
  occupied b = sum_over (column_stones b) cols.
Proof.
  unfold occupied, all_cells. rewrite count_if_sum, sum_over_flat_map.
  rewrite (sum_over_ext _
             (fun i => sum_over (fun j => Z.b2z (negb (cell b i j =? 0))) cols))
    by (intros i _; rewrite sum_over_map; reflexivity).
  rewrite sum_over_swap. apply sum_over_ext. intros j _.
  unfold column_stones. rewrite count_if_sum. reflexivity.
Qed.

(** X16.  In a state that satisfies the height invariant the number of
    stones on the board is the sum of the heights, stones and free cells add
    up to ROWS * COLS, and no move is left exactly when ROWS * COLS cells
    are occupied. *)
Theorem stones_and_free_cells (s : State) :
  heights_ok s ->
  occupied (board s) = sum_over (fun j => arr_get (top s) j) cols /\
  occupied (board s) + free_cells s = ROWS * COLS /\
  (get_valid_moves s = [] <-> occupied (board s) = ROWS * COLS).
Proof.
  intros Hok.
  assert (forall j, In j cols -> 0 <= arr_get (top s) j <= ROWS) as Hrange.
  { intros j Hj. apply list_elem_of_In, in_cols in Hj. rewrite (Hok j Hj).
    apply (count_if_bounds _ rows). }
  assert (occupied (board s) = sum_over (fun j => arr_get (top s) j) cols) as Hocc.
  { rewrite occupied_by_columns. apply sum_over_ext. intros j Hj. symmetry.
    apply Hok, in_cols, list_elem_of_In, Hj. }
  assert (free_cells s = ROWS * COLS - occupied (board s)) as Hfree.
  { rewrite Hocc. unfold free_cells. fold (sum_over (fun j => Z.max 0 (ROWS - arr_get (top s) j)) cols).
    rewrite (sum_over_ext _ (fun j => ROWS + - arr_get (top s) j))
      by (intros j Hj; specialize (Hrange j Hj); lia).
    rewrite sum_over_add, sum_over_const.
    rewrite (sum_over_opp (fun j => arr_get (top s) j)).
    change (Z.of_nat (length cols)) with COLS. lia. }
  split; [exact Hocc |]. split; [lia |].
  rewrite no_valid_move_iff_full, board_full_iff. split.
  - intros Hfull.
    assert (free_cells s = 0); [| lia].
    unfold free_cells. fold (sum_over (fun j => Z.max 0 (ROWS - arr_get (top s) j)) cols).
    rewrite (sum_over_ext _ (fun _ => 0)); [rewrite sum_over_const; lia |].
    intros j Hj. apply list_elem_of_In, in_cols, Hfull in Hj. lia.
  - intros H42 j Hj.
    assert (sum_over (fun j => Z.max 0 (ROWS - arr_get (top s) j)) cols = 0)
      as Hsum by (change (free_cells s = 0); lia).
    apply (sum_over_zero _ cols) with (x := j) in Hsum; [lia | intros; lia |].
    apply list_elem_of_In, in_cols, Hj.
Qed.

Lemma stones_and_free_cells_witness :
  exists s, root_state_of input_three = Some s /\
    occupied (board s) = 5 /\
    occupied (board s) + free_cells s = ROWS * COLS.
Proof.
  eexists. split; [vm_compute; reflexivity |].
  split; [vm_compute; reflexivity |].
  match goal with
  | |- occupied (board ?s) + _ = _ =>
      destruct (stones_and_free_cells s) as (_ & H & _); [| exact H]
  end.
  eapply (root_state_of_wf input_three). vm_compute. reflexivity.
Defined.

(** ** Cell values *)

Section CellValues.

Lemma arr_get_set_cases (a : list Z) (i k v : Z) :
  arr_get (arr_set a i v) k = v \/ arr_get (arr_set a i v) k = arr_get a k.
Proof.
  destruct (decide (k = i)) as [-> | Hne]; [| right; apply arr_get_set_ne, Hne].
  destruct (Z.ltb_spec i 0) as [Hneg | Hpos].
  - right. unfold arr_set. apply Z.ltb_lt in Hneg. rewrite Hneg. reflexivity.
  - destruct (Z.lt_ge_cases i (Z.of_nat (length a))) as [Hin | Hout].
    + left. apply arr_get_set_eq. lia.
    + right. unfold arr_set.
      replace (i <? 0) with false by (symmetry; apply Z.ltb_ge; lia).
      rewrite list_insert_ge by lia. reflexivity.
Qed.

Lemma cell_set_cases (b : list (list Z)) (i j v i' j' : Z) :
  cell (cell_set b i j v) i' j' = v \/
  cell (cell_set b i j v) i' j' = cell b i' j'.
Proof.
  destruct (decide (i' = i)) as [-> | Hne];
    [| right; apply cell_set_ne; left; exact Hne].
  unfold cell, cell_set. destruct (i <? 0); [right; reflexivity |].
  rewrite list_lookup_alter_eq.
  destruct (b !! Z.to_nat i) as [r |]; simpl; [| right; reflexivity].
  apply arr_get_set_cases.
Qed.

End CellValues.

(** X17.  On a board whose cells are 0, 1 or 2, [check_winner] returns -1,
    0, 1 or 2, and a move by player 1 or 2 leaves such a board.  ([main]
    stores other integers as they come, see X14.) *)
Theorem cells_ok_preserved (s : State) (c : Z) :
  cells_ok (board s) -> is_player (player s) ->
  (check_winner s = -1 \/ check_winner s = 0 \/
   check_winner s = 1 \/ check_winner s = 2) /\
  cells_ok (board (apply_move s c)) /\
  is_player (player (apply_move s c)).
Proof.
  intros Hcells Hp. split; [| split].
  - unfold check_winner.
    destruct (List.find _ all_cells) as [[i j] |] eqn:Hfind.
    + apply find_some in Hfind as [Hin Hw].
      apply list_elem_of_In, in_all_cells in Hin.
      apply wins_at_iff in Hw as [Hne _]; [| exact Hin].
      destruct (Hcells i j Hin) as [H0 | [H1 | H2]];
        [contradiction | simpl; auto..].
    + destruct (board_full s); auto.
  - intros i j Hg. simpl board.
    destruct (cell_set_cases (board s) (arr_get (top s) c) c (player s) i j)
      as [-> | ->]; [| apply Hcells, Hg].
    destruct Hp as [-> | ->]; auto.
  - apply is_player_other, Hp.
Qed.

Lemma cells_ok_preserved_witness :
  cells_ok (board (apply_move (empty_state 1) 3)).
Proof.
  apply (cells_ok_preserved (empty_state 1) 3).
  - intros i j [Hi Hj]. simpl in Hi, Hj. left.
    destruct (small_row i Hi) as [-> | [-> | [-> | [-> | [-> | ->]]]]];
      destruct (small_column j Hj)
        as [-> | [-> | [-> | [-> | [-> | [-> | ->]]]]]];
      reflexivity.
  - left. reflexivity.
Defined.

(** ** What the decision depends on *)

(** X18.  The run depends on the input only through the 43 integers it
    converts: two inputs that give the same player number and the same
    ROWS * COLS board integers, whatever the white space between them and
    whatever follows the last integer, lead to the same root state and the
    same outcome. *)
Theorem main_depends_on_integers (fuel : nat) (now : Z)
    (input1 input2 rest1 rest2 tail1 tail2 : string) (p : Z) (vs : list Z) :
  scanf_d input1 = Some (p, rest1) -> scanf_d input2 = Some (p, rest2) ->
  scan_ints 42 rest1 = Some (vs, tail1) ->
  scan_ints 42 rest2 = Some (vs, tail2) ->
  main fuel now input1 = main fuel now input2 /\
  root_state_of input1 = root_state_of input2 /\
  (is_player p ->
   root_state_of input1 =
     Some (init_state (fill_board all_cells vs blank_board) p)).
Proof.
  intros Hp1 Hp2 Hv1 Hv2.
  pose proof (read_board_fill all_cells rest1 blank_board vs tail1 Hv1) as Hb1.
  pose proof (read_board_fill all_cells rest2 blank_board vs tail2 Hv2) as Hb2.
  unfold main, root_state_of. rewrite Hp1, Hp2, Hb1, Hb2.
  split; [reflexivity |]. split; [reflexivity |].
  intros [-> | ->]; reflexivity.
Qed.

Lemma main_depends_on_integers_witness :
  main 6 0 input_three = main 6 0 input_three_trailing.
Proof.
  eapply (main_depends_on_integers 6 0 input_three input_three_trailing).
  - vm_compute. reflexivity.
  - vm_compute. reflexivity.
  - vm_compute. reflexivity.
  - vm_compute. reflexivity.
Defined.

(** X19.  A forced move is played: when exactly one column is valid the
    selector returns it, whatever its value. *)
Theorem alphabeta_search_forced_move (fuel : nat) (root : State)
    (depth root_player c : Z) :
  enough_root fuel root depth -> get_valid_moves root = [c] ->
  alphabeta_search fuel root depth root_player = Some c.
Proof.
  intros Hen Hone.
  destruct (alphabeta_search_argmax fuel root depth root_player Hen)
    as [_ Hsome].
  destruct Hsome as (best & v & Hbest & Hin & _).
  - rewrite Hone. discriminate.
  - rewrite Hone in Hin. destruct Hin as [<- | []]. exact Hbest.
Qed.

Lemma alphabeta_search_forced_move_witness :
  exists s, root_state_of input_almost_full = Some s /\
    alphabeta_search 6 s 6 2 = Some 6.
Proof.
  eexists. split; [vm_compute; reflexivity |].
  apply alphabeta_search_forced_move.
  - right. lia.
  - vm_compute. reflexivity.
Defined.

(** ** The two points of view *)

Section Duality.

Lemma fold_left_ext {A B : Type} (f g : A -> B -> A) (l : list B) (a : A) :
  (forall acc x, f acc x = g acc x) -> fold_left f l a = fold_left g l a.
Proof.
  intros H. revert a. induction l as [| x l IH]; intros a; [reflexivity |].
  simpl. rewrite H. apply IH.
Qed.

Lemma fold_max_opp (w : Z -> Z) (l : list Z) (a : Z) :
  fold_left (fun acc m => Z.max acc (- w m)) l (- a) =
  - fold_left (fun acc m => Z.min acc (w m)) l a.
Proof.
  revert a. induction l as [| m l IH]; intros a; [reflexivity |]. simpl.
  rewrite <- IH. f_equal. lia.
Qed.

Lemma fold_min_opp (w : Z -> Z) (l : list Z) (a : Z) :
  fold_left (fun acc m => Z.min acc (- w m)) l (- a) =
  - fold_left (fun acc m => Z.max acc (w m)) l a.
Proof.
  revert a. induction l as [| m l IH]; intros a; [reflexivity |]. simpl.
  rewrite <- IH. f_equal. lia.
Qed.

(** Maximizing for player 1 is minimizing for player 2, with the opposite
    value. *)
Lemma minimax_opposite (n : nat) (s : State) (maximizing : bool) :
  minimax n s maximizing 1 = - minimax n s (negb maximizing) 2.
Proof.
  revert s maximizing. induction n as [| n IH]; intros s maximizing.
  - apply evaluate_state_opposite.
  - rewrite !minimax_S.
    destruct (negb (check_winner s =? 0)); [apply evaluate_state_opposite |].
    destruct (get_valid_moves s) as [| mv rest];
      [apply evaluate_state_opposite |].
    destruct maximizing; cbn [negb].
    + rewrite (fold_left_ext _
                 (fun acc m => Z.max acc (- minimax n (apply_move s m) true 2)))
        by (intros acc m; rewrite (IH _ false); reflexivity).
      rewrite (IH _ false). cbn [negb].
      apply (fold_max_opp (fun m => minimax n (apply_move s m) true 2)).
    + rewrite (fold_left_ext _
                 (fun acc m => Z.min acc (- minimax n (apply_move s m) false 2)))
        by (intros acc m; rewrite (IH _ true); reflexivity).
      rewrite (IH _ true). cbn [negb].
      apply (fold_min_opp (fun m => minimax n (apply_move s m) false 2)).
Qed.

End Duality.

(** X20.  The search is consistent between the two players: with the full
    window and a depth [d >= 0], the value found for root player 1 at a
    maximizing node is the opposite of the value found for root player 2 at
    a minimizing node, and conversely. *)
Theorem alphabeta_opposite_players (fuel : nat) (s : State) (d : Z) :
  0 <= d < Z.of_nat fuel ->
  exists v,
    alphabeta fuel s d INT_MIN INT_MAX 1 1 = Some v /\
    alphabeta fuel s d INT_MIN INT_MAX 0 2 = Some (- v) /\
    exists w,
      alphabeta fuel s d INT_MIN INT_MAX 0 1 = Some w /\
      alphabeta fuel s d INT_MIN INT_MAX 1 2 = Some (- w).
Proof.
  intros Hd.
  assert (forall mx rp,
            alphabeta fuel s d INT_MIN INT_MAX mx rp =
              Some (minimax (Z.to_nat d) s (negb (mx =? 0)) rp)) as H.
  { intros mx rp. apply alphabeta_full_window; [left; lia | right; exact Hd]. }
  exists (minimax (Z.to_nat d) s true 1). split; [apply (H 1 1) |].
  split.
  - rewrite (H 0 2). f_equal. rewrite (minimax_opposite _ _ true). cbn. lia.
  - exists (minimax (Z.to_nat d) s false 1). split; [apply (H 0 1) |].
    rewrite (H 1 2). f_equal. rewrite (minimax_opposite _ _ false). cbn. lia.
Qed.

Lemma alphabeta_opposite_players_witness :
  exists v,
    alphabeta 3 (empty_state 1) 2 INT_MIN INT_MAX 1 1 = Some v /\
    alphabeta 3 (empty_state 1) 2 INT_MIN INT_MAX 0 2 = Some (- v) /\
    exists w,
      alphabeta 3 (empty_state 1) 2 INT_MIN INT_MAX 0 1 = Some w /\
      alphabeta 3 (empty_state 1) 2 INT_MIN INT_MAX 1 2 = Some (- w).
Proof. apply (alphabeta_opposite_players 3 (empty_state 1) 2). lia. Defined.
